(** * buildCreateApi: the api factory of RTK Query

    A shallow embedding of [buildCreateApi] (createApi.ts) and of the objects
    its closure creates: [optionsWithDefaults], [context] and [api] with its
    two methods [injectEndpoints] and [enhanceEndpoints].

    Reading conventions.
    - A JavaScript value is a [JsVal]; numbers are IEEE doubles ([float]).
    - An object that the caller gives is plain: it is made by an object
      literal or a spread, its properties are own data properties, and its
      prototype is [Object.prototype], which is as the language defines it.
      Such an object is a [gmap] of its own properties; [in] also finds the
      names it inherits from [Object.prototype] ([has_property]).
    - An endpoint definition is an object that the api keeps by reference and
      that [enhanceEndpoints] writes to. An [EndpointDefinition] is the
      identity of the object together with the own properties it was made
      with; [objects], in the state, holds, by identity, the own properties
      of the objects that have been written to since; [contents] reads the
      properties an object has now. Two definitions with one identity are
      one object.
    - [context.endpointDefinitions] is the object whose own properties are
      [endpointDefinitions] and whose prototype is [prototype]:
      [Object.prototype] ([None]) until an assignment to the name
      [__proto__] reaches the setter of [Object.prototype] and replaces it
      by a definition. The test [in], the property read and the assignment
      on this object follow that chain ([in_endpointDefinitions], [read],
      [assign]).
    - [enhanceEndpoints] can be made to write to objects that are not
      endpoint definitions: [Object.prototype] and its methods, a property
      value of a definition or the object that wraps one; and to replace
      the prototype of a definition. This development does not follow such
      writes: the run ends in the outcome [Beyond], of which nothing is
      stated.
    - An object that the code walks with [Object.entries] is the list of its
      entries in enumeration order; an object has every key once ([NoDup] of
      the keys, a hypothesis where a statement needs it).
    - The mutable variables captured by the closures of one [baseCreateApi]
      call are the fields of [ApiState]; a method is a function in the monad
      [M] of state and exceptions.
    - Calls that leave this file (a module's [init] and [injectEndpoint],
      [console.error]) are recorded, in order, in the [log] of the state;
      such a call returns, and does not call back into the api before it
      does. User callbacks are total functions: they do not throw. The
      exception is an update function given to [enhanceEndpoints], which
      the code may call with [undefined]: whether it returns or throws is
      for the host to say. The callback given to [context.batch] is any
      computation in [M].
    - [context.apiUid], a random string that no code here reads, is left
      out. *)

From Stdlib Require Import PrimFloat.
From stdpp Require Import gmap strings list fin_maps.

Set Warnings "-register-all,-clear-no-such-hyp".
Set Default Proof Using "Type".
Open Scope list_scope.

(** ** Values *)

(** Identity of a function value, and of an object used as a [WeakMap] key. *)
Definition FunRef := positive.
Definition ObjRef := positive.

Inductive JsVal : Type :=
| JUndefined
| JNull
| JBool (b : bool)
| JNum (x : float)
| JStr (s : string)
| JFun (f : FunRef)
| JObj (o : gmap string JsVal).

Abbreviation JsObj := (gmap string JsVal).

(** An object in [Object.entries] order. *)
Abbreviation JsRecord A := (list (string * A)).
Definition Object_entries {A} (o : JsRecord A) : list (string * A) := o.

(** [v != null] is false exactly on [null] and [undefined]. *)
Definition nullish (v : JsVal) : bool :=
  match v with JUndefined | JNull => true | _ => false end.

(** [a ?? b] *)
Definition nullish_coalesce (a : option JsVal) (b : JsVal) : JsVal :=
  match a with
  | Some v => if nullish v then b else v
  | None => b
  end.

(** [v === true] *)
Definition exactly_true (v : JsVal) : bool :=
  match v with JBool true => true | _ => false end.

(** [v === s] for a string literal [s] *)
Definition is_string (s : string) (v : JsVal) : bool :=
  match v with JStr s' => bool_decide (s' = s) | _ => false end.

(** [v] in a boolean position, as in [v || {}] *)
Definition truthy (v : JsVal) : bool :=
  match v with
  | JUndefined | JNull => false
  | JBool b => b
  | JNum x => negb (PrimFloat.eqb x 0 || PrimFloat.is_nan x)
  | JStr s => negb (bool_decide (s = EmptyString))
  | JFun _ | JObj _ => true
  end.

(** [v] is an object: it can be written to. *)
Definition is_object (v : JsVal) : bool :=
  match v with JFun _ | JObj _ => true | _ => false end.

(** The setter of [__proto__] acts when it is given an object or [null],
    and does nothing when it is given another value. *)
Definition sets_prototype (v : JsVal) : bool :=
  match v with JNull | JFun _ | JObj _ => true | _ => false end.

Inductive JsError : Type :=
| Error (message : string)
| TypeError.

(** How a call ends. [Beyond]: the run has come to write to an object that
    this development does not follow (see [enhance_entry]); nothing is
    stated of what it does from there on. *)
Inductive Outcome (A : Type) : Type :=
| Returned (a : A)
| Thrown (e : JsError)
| Beyond.
Arguments Returned {A} a.
Arguments Thrown {A} e.
Arguments Beyond {A}.

(** Property read [o.k] on an object. *)
Definition prop (o : JsObj) (k : string) : JsVal := default JUndefined (o !! k).

(** The properties of [Object.prototype], which every object literal
    inherits. *)
Definition Object_prototype : list string :=
  ["constructor"; "__defineGetter__"; "__defineSetter__"; "hasOwnProperty";
   "__lookupGetter__"; "__lookupSetter__"; "isPrototypeOf";
   "propertyIsEnumerable"; "toString"; "valueOf"; "__proto__";
   "toLocaleString"].

(** [k in o] for a plain object [o] *)
Definition has_property {A} (k : string) (o : gmap string A) : bool :=
  bool_decide (is_Some (o !! k)) || bool_decide (k ∈ Object_prototype).

(** [const { k } = v]: reading a property of [undefined] or [null] throws;
    a primitive has no such property. *)
Definition destructure (v : JsVal) (k : string) : Outcome JsVal :=
  match v with
  | JUndefined | JNull => Thrown TypeError
  | JObj o => Returned (prop o k)
  | _ => Returned JUndefined
  end.

(** ** Endpoint definitions *)

(** Modelled from the spec: the enumeration [DefinitionType] is imported from
    ./endpointDefinitions, which is not among the sources; its three members
    [query], [mutation] and [infinitequery] are string constants carrying
    their own names. *)
Module DefinitionType.
Definition query : JsVal := JStr "query".
Definition mutation : JsVal := JStr "mutation".
Definition infinitequery : JsVal := JStr "infinitequery".
End DefinitionType.

(** The [build] object handed to an [endpoints] callback. *)
Record EndpointBuilder : Type := {
  query : JsObj → JsObj;
  mutation : JsObj → JsObj;
  infiniteQuery : JsObj → JsObj;
}.

(** The argument of a [serializeQueryArgs] function. *)
Record QueryArgsApi : Type := {
  queryArgs : JsVal;
  endpointDefinition : JsObj;
  endpointName : string;
}.

(** A dispatched action: an object, with its identity. *)
Record Action : Type := {
  action_ref : ObjRef;
  action_fields : JsObj;
}.

(** An endpoint definition: the object [definition_ref], made with the
    own properties [definition_fields]. *)
Record EndpointDefinition : Type := Object_at {
  definition_ref : ObjRef;
  definition_fields : JsObj;
}.

(** What the read [context.endpointDefinitions[k]] finds: a definition
    (registered under [k], or the replaced prototype read through
    [__proto__]); an object of the language ([Object.prototype] read through
    [__proto__], or one of its methods); or another value ([undefined] when
    there is no such property, or the value of a property of the replaced
    prototype). *)
Inductive Found : Type :=
| FoundDefinition (definition : EndpointDefinition)
| FoundBuiltin
| FoundValue (v : JsVal).

(** ** What the host provides *)

(** [World]: state outside the api that a callback may read and write.
    [development]: the test [typeof process !== 'undefined' &&
    process.env.NODE_ENV === 'development'].
    [defaultSerializeQueryArgs] and [isInfiniteQueryDefinition]: the two
    imported helpers, whose files are not among the sources.
    [call_serializeQueryArgs f]: calling the function value [f] stored as a
    definition's [serializeQueryArgs].
    [call_enhancer f v]: calling the update function [f] given to
    [enhanceEndpoints] on [v]. On a definition, shown to it as the object
    [JObj fields] of its properties, it returns the properties that the
    definition has after the call, or throws; on a value that is no object
    only the outcome counts. *)
Class Host : Type := {
  World : Type;
  development : bool;
  defaultSerializeQueryArgs : QueryArgsApi → string;
  isInfiniteQueryDefinition : JsObj → bool;
  call_serializeQueryArgs : FunRef → QueryArgsApi → JsVal;
  call_enhancer : FunRef → JsVal → Outcome JsObj;
}.

(** ** Options *)

Module CreateApiOptions.
(** The interface [CreateApiOptions]. [None] is an absent property; the
    members the factory only copies ([baseQuery], the schema settings) are
    left out. *)
Record t `{Host} : Type := {
  tagTypes : option (list string);
  reducerPath : option JsVal;
  serializeQueryArgs : option (QueryArgsApi → string);
  endpoints : EndpointBuilder → JsRecord EndpointDefinition;
  keepUnusedDataFor : option JsVal;
  refetchOnMountOrArgChange : option JsVal;
  refetchOnFocus : option JsVal;
  refetchOnReconnect : option JsVal;
  invalidationBehavior : option JsVal;
  extractRehydrationInfo : option (Action → JsVal → World → JsVal * World);
}.
End CreateApiOptions.
Abbreviation CreateApiOptions := CreateApiOptions.t.

(** The properties of [optionsWithDefaults] that never change. Its
    [tagTypes] array is mutable and lives in the state; its
    [extractRehydrationInfo] is the memoized function of that name below. *)
Record OptionsWithDefaults : Type := {
  reducerPath : JsVal;
  keepUnusedDataFor : JsVal;
  refetchOnMountOrArgChange : JsVal;
  refetchOnFocus : JsVal;
  refetchOnReconnect : JsVal;
  invalidationBehavior : JsVal;
  serializeQueryArgs : QueryArgsApi → Outcome string;
}.

(** ** Modules *)

Record Module : Type := { name : string }.

(** What [m.init(...)] returns: the object whose [injectEndpoint] is called
    later; [position] is the module's index in [modules]. *)
Record InitializedModule : Type := {
  position : nat;
  of_module : Module;
}.

Inductive Event : Type :=
| ModuleInit (i : nat) (m : Module) (api : ObjRef)
    (options : OptionsWithDefaults) (context : ObjRef)
| ModuleInjectEndpoint (i : nat) (endpointName : string)
    (definition : EndpointDefinition)
| ConsoleError (message : string).

(** ** State and monad *)

(** The mutable variables of one api: [tagTypes] is
    [optionsWithDefaults.tagTypes]; [endpointDefinitions] and [prototype]
    are the own properties and the prototype of
    [context.endpointDefinitions] ([None]: [Object.prototype]); [objects]
    holds the own properties of the definitions that have been written to;
    [extractCache] and [hasCache] are the caches of the two memoized
    functions; [log] is the calls made so far. *)
Record ApiState `{Host} : Type := {
  tagTypes : list string;
  endpointDefinitions : gmap string EndpointDefinition;
  prototype : option EndpointDefinition;
  objects : gmap ObjRef JsObj;
  extractCache : gmap ObjRef JsVal;
  hasCache : gmap ObjRef bool;
  log : list Event;
  world : World;
}.

Section Monad.
Context `{Host}.

Definition M (A : Type) : Type := ApiState → Outcome A * ApiState.

#[export] Instance M_ret : MRet M := λ A a st, (Returned a, st).
#[export] Instance M_bind : MBind M := λ A B f m st,
  match m st with
  | (Returned a, st') => f a st'
  | (Thrown e, st') => (Thrown e, st')
  | (Beyond, st') => (Beyond, st')
  end.

Definition throw {A} (e : JsError) : M A := λ st, (Thrown e, st).
Definition beyond {A} : M A := λ st, (Beyond, st).
Definition get_state : M ApiState := λ st, (Returned st, st).
Definition modify (f : ApiState → ApiState) : M () := λ st, (Returned (), f st).
Definition lift {A} (o : Outcome A) : M A := λ st, (o, st).

Definition set_tagTypes
    (f : list string → list string) (st : ApiState) : ApiState :=
  {| tagTypes := f (tagTypes st);
     endpointDefinitions := endpointDefinitions st;
     prototype := prototype st;
     objects := objects st;
     extractCache := extractCache st;
     hasCache := hasCache st;
     log := log st;
     world := world st |}.
Definition set_endpointDefinitions
    (f : gmap string EndpointDefinition → gmap string EndpointDefinition) (st : ApiState) : ApiState :=
  {| tagTypes := tagTypes st;
     endpointDefinitions := f (endpointDefinitions st);
     prototype := prototype st;
     objects := objects st;
     extractCache := extractCache st;
     hasCache := hasCache st;
     log := log st;
     world := world st |}.
Definition set_prototype
    (p : option EndpointDefinition) (st : ApiState) : ApiState :=
  {| tagTypes := tagTypes st;
     endpointDefinitions := endpointDefinitions st;
     prototype := p;
     objects := objects st;
     extractCache := extractCache st;
     hasCache := hasCache st;
     log := log st;
     world := world st |}.
Definition set_objects
    (f : gmap ObjRef JsObj → gmap ObjRef JsObj) (st : ApiState) : ApiState :=
  {| tagTypes := tagTypes st;
     endpointDefinitions := endpointDefinitions st;
     prototype := prototype st;
     objects := f (objects st);
     extractCache := extractCache st;
     hasCache := hasCache st;
     log := log st;
     world := world st |}.
Definition set_extractCache
    (c : gmap ObjRef JsVal) (st : ApiState) : ApiState :=
  {| tagTypes := tagTypes st;
     endpointDefinitions := endpointDefinitions st;
     prototype := prototype st;
     objects := objects st;
     extractCache := c;
     hasCache := hasCache st;
     log := log st;
     world := world st |}.
Definition set_hasCache
    (c : gmap ObjRef bool) (st : ApiState) : ApiState :=
  {| tagTypes := tagTypes st;
     endpointDefinitions := endpointDefinitions st;
     prototype := prototype st;
     objects := objects st;
     extractCache := extractCache st;
     hasCache := c;
     log := log st;
     world := world st |}.
Definition set_log
    (f : list Event → list Event) (st : ApiState) : ApiState :=
  {| tagTypes := tagTypes st;
     endpointDefinitions := endpointDefinitions st;
     prototype := prototype st;
     objects := objects st;
     extractCache := extractCache st;
     hasCache := hasCache st;
     log := f (log st);
     world := world st |}.
Definition set_world
    (w : World) (st : ApiState) : ApiState :=
  {| tagTypes := tagTypes st;
     endpointDefinitions := endpointDefinitions st;
     prototype := prototype st;
     objects := objects st;
     extractCache := extractCache st;
     hasCache := hasCache st;
     log := log st;
     world := w |}.

Definition emit (e : Event) : M () := modify (set_log (λ l, l ++ [e])).

(** [for (const x of l) body]; a body that returns early is [continue]. *)
Fixpoint for_of {A} (l : list A) (body : A → M ()) : M () :=
  match l with
  | [] => mret ()
  | x :: l' => body x ;; for_of l' body
  end.

(** [l.map(f)] for an effectful [f], which is given the element and its
    index. *)
Fixpoint array_map_from {A B} (i : nat) (f : A → nat → M B) (l : list A)
    : M (list B) :=
  match l with
  | [] => mret []
  | x :: l' => y ← f x i; ys ← array_map_from (S i) f l'; mret (y :: ys)
  end.
Definition array_map {A B} (f : A → nat → M B) (l : list A) : M (list B) :=
  array_map_from 0 f l.

(** Modelled from the spec: [weakMapMemoize] is imported from the reselect
    package, which is not among the sources; the spec calls it a memoized
    selector. Called with one object, the memoized function looks the
    object up, by identity, in its cache: a hit returns the cached result
    without calling [func]; a miss calls [func] and caches what it returns
    (nothing is cached when [func] throws). [cache] and [set_cache] read
    and write the cache among the variables of the api. *)
Definition weakMapMemoize {A}
    (cache : ApiState → gmap ObjRef A)
    (set_cache : gmap ObjRef A → ApiState → ApiState)
    (func : Action → M A) : Action → M A :=
  λ action st,
    match cache st !! action_ref action with
    | Some result => (Returned result, st)
    | None =>
        match func action st with
        | (Returned result, st') =>
            (Returned result,
             set_cache (<[action_ref action := result]> (cache st')) st')
        | (Thrown e, st') => (Thrown e, st')
        | (Beyond, st') => (Beyond, st')
        end
    end.

(** ** The object [context.endpointDefinitions] *)

(** The own properties that the object of a definition has now. *)
Definition contents (st : ApiState) (d : EndpointDefinition) : JsObj :=
  default (definition_fields d) (objects st !! definition_ref d).

(** [k in context.endpointDefinitions]: an own property, or a property of
    the prototype, which is a definition (a plain object) or
    [Object.prototype]. *)
Definition in_endpointDefinitions (k : string) (st : ApiState) : bool :=
  bool_decide (is_Some (endpointDefinitions st !! k))
  || match prototype st with
     | Some d => has_property k (contents st d)
     | None => bool_decide (k ∈ Object_prototype)
     end.

(** [context.endpointDefinitions[k] = v]. The assignment looks for the
    property along the chain. An own property is written. Where the first
    one found is the accessor [__proto__] of [Object.prototype], its setter
    makes [v] the prototype of [context.endpointDefinitions]. Otherwise (a
    data property of the prototype, a method of [Object.prototype], or
    nothing) an own property is made. *)
Definition assign (k : string) (v : EndpointDefinition) (st : ApiState)
    : ApiState :=
  if bool_decide (k = "__proto__")
     && negb (bool_decide (is_Some (endpointDefinitions st !! k)))
     && negb (match prototype st with
              | Some d => bool_decide (is_Some (contents st d !! k))
              | None => false
              end)
  then set_prototype (Some v) st
  else set_endpointDefinitions <[k := v]> st.

(** [context.endpointDefinitions[k]]. The getter of [__proto__] returns the
    prototype of [context.endpointDefinitions]. *)
Definition read (k : string) (st : ApiState) : Found :=
  match endpointDefinitions st !! k with
  | Some d => FoundDefinition d
  | None =>
      let inherited :=
        if bool_decide (k = "__proto__") then
          match prototype st with
          | Some d => FoundDefinition d
          | None => FoundBuiltin
          end
        else if bool_decide (k ∈ Object_prototype) then FoundBuiltin
        else FoundValue JUndefined in
      match prototype st with
      | Some d =>
          match contents st d !! k with
          | Some v => FoundValue v
          | None => inherited
          end
      | None => inherited
      end
  end.

(** The object [d] gets the own properties [fields]. *)
Definition write (d : EndpointDefinition) (fields : JsObj) : M () :=
  modify (set_objects <[definition_ref d := fields]>).

(** [Object.assign(target, source)] on a definition: every own property of
    [source] is assigned to [target]. The object has no setter but that of
    [__proto__], which it inherits unless it has an own property of that
    name: given an object or [null] the setter replaces the prototype of
    the definition, given another value it does nothing. *)
Definition Object_assign (target : EndpointDefinition) (source : JsObj) : M () :=
  st ← get_state;
  let fields := contents st target in
  if bool_decide (is_Some (fields !! "__proto__")) then
    write target (source ∪ fields)
  else
    match source !! "__proto__" with
    | Some v =>
        if sets_prototype v then beyond
        else write target (delete "__proto__" source ∪ fields)
    | None => write target (source ∪ fields)
    end.
End Monad.

(** ** The closure of [buildCreateApi] *)

(** The argument of [injectEndpoints]. *)
Record Inject : Type := {
  endpoints : EndpointBuilder → JsRecord EndpointDefinition;
  overrideExisting : JsVal;
}.

(** A value of the [endpoints] object given to [enhanceEndpoints]: a
    function that updates the definition, or properties to merge into it. *)
Inductive PartialDefinition : Type :=
| UpdateFunction (f : FunRef)
| PartialObject (partialDefinition : JsObj).

Section buildCreateApi.
Context `{Host}.
Variable modules : list Module.

Section baseCreateApi.
Variable options : CreateApiOptions.
(** The identities of the object literals [context] and [api]. *)
Variables context api : ObjRef.

Definition optionsWithDefaults : OptionsWithDefaults := {|
  reducerPath := default (JStr "api") (CreateApiOptions.reducerPath options);
  keepUnusedDataFor :=
    default (JNum 60) (CreateApiOptions.keepUnusedDataFor options);
  refetchOnMountOrArgChange :=
    default (JBool false) (CreateApiOptions.refetchOnMountOrArgChange options);
  refetchOnFocus :=
    default (JBool false) (CreateApiOptions.refetchOnFocus options);
  refetchOnReconnect :=
    default (JBool false) (CreateApiOptions.refetchOnReconnect options);
  invalidationBehavior :=
    default (JStr "delayed") (CreateApiOptions.invalidationBehavior options);
  serializeQueryArgs := λ queryArgsApi,
    let finalSerializeQueryArgs : QueryArgsApi → Outcome string :=
      if has_property "serializeQueryArgs" (endpointDefinition queryArgsApi)
      then
        let endpointSQA :=
          prop (endpointDefinition queryArgsApi) "serializeQueryArgs" in
        λ queryArgsApi,
          match endpointSQA with
          | JFun f =>
              let initialResult := call_serializeQueryArgs f queryArgsApi in
              match initialResult with
              | JStr s => Returned s
              | _ =>
                  Returned (defaultSerializeQueryArgs
                    {| queryArgs := initialResult;
                       endpointDefinition := endpointDefinition queryArgsApi;
                       endpointName := endpointName queryArgsApi |})
              end
          | _ => Thrown TypeError
          end
      else
        match CreateApiOptions.serializeQueryArgs options with
        | Some optionsSQA => λ queryArgsApi, Returned (optionsSQA queryArgsApi)
        | None => λ queryArgsApi, Returned (defaultSerializeQueryArgs queryArgsApi)
        end in
    finalSerializeQueryArgs queryArgsApi;
|}.

(** The variables of the api when [baseCreateApi] has built
    [optionsWithDefaults] and [context]: [tagTypes] is a copy of
    [options.tagTypes || []]. *)
Definition initial_state (w : World) : ApiState := {|
  tagTypes := default [] (CreateApiOptions.tagTypes options);
  endpointDefinitions := ∅;
  prototype := None;
  objects := ∅;
  extractCache := ∅;
  hasCache := ∅;
  log := [];
  world := w;
|}.

(** [context.extractRehydrationInfo]; the callback of the options is given
    the action and the [reducerPath] of its second argument. *)
Definition extractRehydrationInfo : Action → M JsVal :=
  weakMapMemoize extractCache set_extractCache (λ action,
    match CreateApiOptions.extractRehydrationInfo options with
    | Some f => λ st,
        let '(result, w) :=
          f action
            (nullish_coalesce (CreateApiOptions.reducerPath options) (JStr "api"))
            (world st) in
        (Returned result, set_world w st)
    | None => mret JUndefined
    end).

(** [context.hasRehydrationInfo] *)
Definition hasRehydrationInfo : Action → M bool :=
  weakMapMemoize hasCache set_hasCache (λ action,
    result ← extractRehydrationInfo action;
    mret (negb (nullish result))).

(** [context.batch]: the placeholder calls [fn] and returns nothing. The
    callback is any computation on the variables of the api. *)
Definition batch {A} (fn : M A) : M JsVal :=
  fn ;; mret JUndefined.

(** Following the words of the claim about [addTagTypes]: the tag types of
    [addTagTypes] that are not already present, in the order given. An
    element is appended where neither [tagTypes] nor the elements before it
    in [addTagTypes] hold it. *)
Definition appended_tags (tagTypes addTagTypes : list string) : list string :=
  omap id
    (imap (λ i eT,
             if bool_decide (eT ∈ tagTypes ++ take i addTagTypes)
             then None else Some eT)
       addTagTypes).

(** One turn of the second loop of [enhanceEndpoints]: an update function
    is called on [context.endpointDefinitions[endpointName]], a partial
    definition is merged by [Object.assign] into that value or, when it is
    falsy, into a new object that is dropped. The run goes [Beyond] where
    the value is an object other than a definition, which the update
    function or [Object.assign] may write to, or another truthy value,
    which [Object.assign] wraps in an object. *)
Definition enhance_entry (entry : string * PartialDefinition) : M () :=
  let '(endpointName, partialDefinition) := entry in
  st ← get_state;
  match partialDefinition with
  | UpdateFunction f =>
      match read endpointName st with
      | FoundDefinition definition =>
          fields ← lift (call_enhancer f (JObj (contents st definition)));
          write definition fields
      | FoundValue v =>
          if is_object v then beyond
          else lift (call_enhancer f v) ;; mret ()
      | FoundBuiltin => beyond
      end
  | PartialObject partialDefinition =>
      match read endpointName st with
      | FoundDefinition definition => Object_assign definition partialDefinition
      | FoundValue v => if truthy v then beyond else mret ()
      | FoundBuiltin => beyond
      end
  end.

(** [api.enhanceEndpoints({ addTagTypes, endpoints })] *)
Definition enhanceEndpoints
    (addTagTypes : option (list string))
    (endpoints : option (JsRecord PartialDefinition)) : M ObjRef :=
  match addTagTypes with
  | Some addTagTypes =>
      for_of addTagTypes (λ eT,
        st ← get_state;
        if bool_decide (eT ∈ tagTypes st) then mret ()
        else modify (set_tagTypes (λ l, l ++ [eT])))
  | None => mret ()
  end ;;
  match endpoints with
  | Some endpoints => for_of (Object_entries endpoints) enhance_entry
  | None => mret ()
  end ;;
  mret api.

(** [m.init(api, optionsWithDefaults, context)] for the module at index
    [i], and the [injectEndpoint] of the object it returned. *)
Definition init (m : Module) (i : nat) : M InitializedModule :=
  emit (ModuleInit i m api optionsWithDefaults context) ;;
  mret {| position := i; of_module := m |}.

Definition injectEndpoint (m : InitializedModule)
    (endpointName : string) (definition : EndpointDefinition) : M () :=
  emit (ModuleInjectEndpoint (position m) endpointName definition).

Definition build : EndpointBuilder := {|
  query := λ x, <["type" := DefinitionType.query]> x;
  mutation := λ x, <["type" := DefinitionType.mutation]> x;
  infiniteQuery := λ x, <["type" := DefinitionType.infinitequery]> x;
|}.

Definition override_message (endpointName : string) : string :=
  "called `injectEndpoints` to override already-existing endpointName "
  +:+ endpointName +:+ " without specifying `overrideExisting: true`".

Definition maxPages_message (endpointName : string) : string :=
  "maxPages for endpoint '" +:+ endpointName
  +:+ "' must be a number greater than 0".

Definition getPreviousPageParam_message (endpointName : string) : string :=
  "getPreviousPageParam for endpoint '" +:+ endpointName
  +:+ "' must be a function if maxPages is used".

(** The development-only check of an infinite query definition, on the
    properties that it has. *)
Definition check_infiniteQueryOptions
    (endpointName : string) (definition : JsObj) : M () :=
  if isInfiniteQueryDefinition definition then
    let infiniteQueryOptions := prop definition "infiniteQueryOptions" in
    maxPages ← lift (destructure infiniteQueryOptions "maxPages");
    getPreviousPageParam ←
      lift (destructure infiniteQueryOptions "getPreviousPageParam");
    match maxPages with
    | JNum maxPages =>
        if PrimFloat.ltb maxPages 1 then
          throw (Error (maxPages_message endpointName))
        else
          match getPreviousPageParam with
          | JFun _ => mret ()
          | _ => throw (Error (getPreviousPageParam_message endpointName))
          end
    | _ => mret ()
    end
  else mret ().

(** One turn of the loop of [injectEndpoints]. *)
Definition inject_entry (initializedModules : list InitializedModule)
    (inject : Inject) (entry : string * EndpointDefinition) : M () :=
  let '(endpointName, definition) := entry in
  st ← get_state;
  if negb (exactly_true (overrideExisting inject))
     && in_endpointDefinitions endpointName st
  then
    if is_string "throw" (overrideExisting inject) then
      throw (Error (override_message endpointName))
    else if development then
      emit (ConsoleError (override_message endpointName))
    else mret ()
  else
    (if development
     then check_infiniteQueryOptions endpointName (contents st definition)
     else mret ()) ;;
    modify (assign endpointName definition) ;;
    for_of initializedModules (λ m, injectEndpoint m endpointName definition).

(** [api.injectEndpoints(inject)]; [initializedModules] is the constant of
    that name in the closure. *)
Definition injectEndpoints (initializedModules : list InitializedModule)
    (inject : Inject) : M ObjRef :=
  let evaluatedEndpoints := endpoints inject build in
  for_of (Object_entries evaluatedEndpoints)
    (inject_entry initializedModules inject) ;;
  mret api.

Definition baseCreateApi : M ObjRef :=
  initializedModules ← array_map init modules;
  injectEndpoints initializedModules
    {| endpoints := CreateApiOptions.endpoints options;
       overrideExisting := JUndefined |}.

(** The objects [m.init] returns, one per module, in order. *)
Definition initialized : list InitializedModule :=
  imap (λ i m, {| position := i; of_module := m |}) modules.
End baseCreateApi.

(** [createApi(options)] run in a world [w]: what it returns or throws, and
    the variables of the api it has built. *)
Definition createApi (options : CreateApiOptions) (context api : ObjRef)
    (w : World) : Outcome ObjRef * ApiState :=
  baseCreateApi options context api (initial_state options w).
End buildCreateApi.

(** [buildCreateApi(...modules)] returns the [createApi] of the closure over
    [modules]. *)
Definition buildCreateApi `{Host} (modules : list Module)
    : CreateApiOptions → ObjRef → ObjRef → World → Outcome ObjRef * ApiState :=
  createApi modules.

(** ** Using an api *)

(** What the code that holds the api and its context may do next: call a
    method of the api, call one of the two memoized functions of the
    context, do such a call inside [context.batch], or change the world. *)
Inductive ApiCall `{Host} : Type :=
| CallInjectEndpoints (inject : Inject)
| CallEnhanceEndpoints (addTagTypes : option (list string))
    (endpoints : option (JsRecord PartialDefinition))
| CallExtractRehydrationInfo (action : Action)
| CallHasRehydrationInfo (action : Action)
| CallBatch (fn : ApiCall)
| ChangeWorld (f : World → World).

Section Use.
Context `{Host}.
Variable modules : list Module.
Variable options : CreateApiOptions.
Variable api : ObjRef.

Fixpoint perform (c : ApiCall) : M () :=
  match c with
  | CallInjectEndpoints inject =>
      injectEndpoints api (initialized modules) inject ;; mret ()
  | CallEnhanceEndpoints addTagTypes endpoints =>
      enhanceEndpoints api addTagTypes endpoints ;; mret ()
  | CallExtractRehydrationInfo action =>
      extractRehydrationInfo options action ;; mret ()
  | CallHasRehydrationInfo action =>
      hasRehydrationInfo options action ;; mret ()
  | CallBatch fn => batch (perform fn) ;; mret ()
  | ChangeWorld f => modify (λ st, set_world (f (world st)) st)
  end.

(** The variables of the api after a sequence of calls, each of which
    returns or throws. *)
Definition after (calls : list ApiCall) (st : ApiState) : ApiState :=
  foldl (λ st c, (perform c st).2) st calls.

(** Every call of the sequence returns or throws: none ends [Beyond]. Of
    an api that has been taken beyond, through [enhanceEndpoints], nothing
    is stated. *)
Fixpoint followed (calls : list ApiCall) (st : ApiState) : bool :=
  match calls with
  | [] => true
  | c :: calls' =>
      match perform c st with
      | (Beyond, _) => false
      | (_, st') => followed calls' st'
      end
  end.

(** [v] is what the [extractRehydrationInfo] of the options returns for
    the action object [r], with some contents and in some world, given the
    [reducerPath] of the options; without such an option, [v] is
    [undefined]. *)
Definition returned_by_options (r : ObjRef) (v : JsVal) : Prop :=
  match CreateApiOptions.extractRehydrationInfo options with
  | Some f =>
      ∃ fields w,
        (f {| action_ref := r; action_fields := fields |}
           (nullish_coalesce (CreateApiOptions.reducerPath options) (JStr "api"))
           w).1 = v
  | None => v = JUndefined
  end.

(** Every cached answer of [hasRehydrationInfo] is the test of the cached
    result of [extractRehydrationInfo] for the same action, and every
    cached result is one that the [extractRehydrationInfo] of the options
    returned for that action. *)
Definition caches_agree (st : ApiState) : Prop :=
  (∀ r b, hasCache st !! r = Some b →
     ∃ v, extractCache st !! r = Some v ∧ b = negb (nullish v))
  ∧ (∀ r v, extractCache st !! r = Some v → returned_by_options r v).

Definition caches_grow (st st' : ApiState) : Prop :=
  extractCache st ⊆ extractCache st' ∧ hasCache st ⊆ hasCache st'.

End Use.

(** ** The ordinary use of [enhanceEndpoints] *)

(** An entry of the [endpoints] given to [enhanceEndpoints] is ordinary
    when its name is registered and its value is a partial definition
    without a [__proto__] of its own, or an update function that returns. *)
Definition ordinary `{Host} (st : ApiState)
    (entry : string * PartialDefinition) : Prop :=
  is_Some (endpointDefinitions st !! entry.1)
  ∧ match entry.2 with
    | UpdateFunction f => ∀ v, ∃ fields, call_enhancer f v = Returned fields
    | PartialObject p => p !! "__proto__" = None
    end.

(** ** Reading the log *)

(** The arguments of the calls of [init], in order. *)
Definition init_calls (l : list Event)
    : list (nat * Module * ObjRef * OptionsWithDefaults * ObjRef) :=
  omap (λ e, match e with
             | ModuleInit i m api options context =>
                 Some (i, m, api, options, context)
             | _ => None
             end) l.

(** The definitions with which the module at index [i] had its
    [injectEndpoint] called for [endpointName], in order. *)
Definition injectEndpoint_calls (i : nat) (endpointName : string)
    (l : list Event) : list EndpointDefinition :=
  omap (λ e, match e with
             | ModuleInjectEndpoint j n definition =>
                 if bool_decide (j = i ∧ n = endpointName)
                 then Some definition else None
             | _ => None
             end) l.

(** The loop of [injectEndpoints] as a relation: [injected l st r st' new]
    when the loop over the entries [l], started in [st], ends with [r] in
    [st'] and has logged [new]. An entry whose name is found in
    [context.endpointDefinitions] is refused with an [Error] or skipped;
    another entry fails the development check or is stored and announced
    to every module. *)
Section Loop.
Context `{Host}.
Variable ims : list InitializedModule.
Variable inject : Inject.

Definition announce (n : string) (d : EndpointDefinition) : list Event :=
  map (λ m, ModuleInjectEndpoint (position m) n d) ims.

Definition complaint (n : string) : list Event :=
  if development then [ConsoleError (override_message n)] else [].

Inductive injected
  : list (string * EndpointDefinition) → ApiState → Outcome () → ApiState
    → list Event → Prop :=
| injected_nil st :
    injected [] st (Returned ()) st []
| injected_refuse n d l st :
    exactly_true (overrideExisting inject) = false →
    in_endpointDefinitions n st = true →
    is_string "throw" (overrideExisting inject) = true →
    injected ((n, d) :: l) st (Thrown (Error (override_message n))) st []
| injected_skip n d l st r st' new :
    exactly_true (overrideExisting inject) = false →
    in_endpointDefinitions n st = true →
    is_string "throw" (overrideExisting inject) = false →
    injected l (set_log (λ lg, lg ++ complaint n) st) r st' new →
    injected ((n, d) :: l) st r st' (complaint n ++ new)
| injected_invalid n d l st e :
    exactly_true (overrideExisting inject) = true
    ∨ in_endpointDefinitions n st = false →
    development = true →
    (check_infiniteQueryOptions n (contents st d) st).1 = Thrown e →
    injected ((n, d) :: l) st (Thrown e) st []
| injected_store n d l st r st' new :
    exactly_true (overrideExisting inject) = true
    ∨ in_endpointDefinitions n st = false →
    (development = true →
     (check_infiniteQueryOptions n (contents st d) st).1 = Returned ()) →
    injected l (set_log (λ lg, lg ++ announce n d) (assign n d st)) r st' new →
    injected ((n, d) :: l) st r st' (announce n d ++ new).

End Loop.

(** ** Two hosts and a few inputs, for examples *)

Module Scenario.

Definition show (v : JsVal) : string :=
  match v with
  | JStr s => s
  | JBool true => "true"
  | JBool false => "false"
  | JUndefined => "undefined"
  | JNull => "null"
  | _ => "object"
  end.

Definition host (dev : bool) : Host := {|
  World := nat;
  development := dev;
  defaultSerializeQueryArgs := λ q,
    endpointName q +:+ "(" +:+ show (queryArgs q) +:+ ")";
  isInfiniteQueryDefinition := λ definition,
    is_string "infinitequery" (prop definition "type");
  call_serializeQueryArgs := λ f q,
    match f with
    | 1%positive => JStr "fixed-key"
    | 2%positive => JBool true
    | _ => JUndefined
    end;
  call_enhancer := λ f v,
    match v with
    | JObj definition => Returned (<["enhanced" := JBool true]> definition)
    | _ => Thrown TypeError
    end;
|}.

Definition production : Host := host false.
Definition dev : Host := host true.

Definition core : Module := {| name := "core" |}.
Definition react : Module := {| name := "react" |}.

Definition getPosts : JsObj := {[ "query" := JFun 10%positive ]}.
Definition addPost : JsObj := {[ "query" := JFun 11%positive ]}.
Definition feed : JsObj :=
  {[ "infiniteQueryOptions" := JObj {[ "maxPages" := JNum 0 ]} ]}.

Definition options `{Host} (e : EndpointBuilder → JsRecord EndpointDefinition)
    : CreateApiOptions := {|
  CreateApiOptions.tagTypes := Some ["Post"];
  CreateApiOptions.reducerPath := None;
  CreateApiOptions.serializeQueryArgs := None;
  CreateApiOptions.endpoints := e;
  CreateApiOptions.keepUnusedDataFor := None;
  CreateApiOptions.refetchOnMountOrArgChange := None;
  CreateApiOptions.refetchOnFocus := None;
  CreateApiOptions.refetchOnReconnect := None;
  CreateApiOptions.invalidationBehavior := None;
  CreateApiOptions.extractRehydrationInfo := None;
|}.

(** [createApi({ tagTypes: ['Post'], endpoints: build => ({ getPosts:
    build.query(...) }) })] *)
Definition posts_options (h : Host) : @CreateApiOptions.t h :=
  options (λ b, [("getPosts", Object_at 20%positive (query b getPosts))]).

(** An api with an infinite query that keeps no page. *)
Definition feed_options (h : Host) : @CreateApiOptions.t h :=
  options (λ b, [("feed", Object_at 22%positive (infiniteQuery b feed))]).

(** [api.injectEndpoints({ endpoints: build => ({ getPosts:
    build.query(...), addPost: build.mutation(...) }), overrideExisting })] *)
Definition more_endpoints (overrideExisting : JsVal) : Inject := {|
  endpoints := λ b,
    [("getPosts",
      Object_at 23%positive (query b (<["keepUnusedDataFor" := JNum 5]> getPosts)));
     ("addPost", Object_at 21%positive (mutation b addPost))];
  overrideExisting := overrideExisting;
|}.

(** Options with a [serializeQueryArgs] of their own. *)
Definition keyed_options (h : Host) : @CreateApiOptions.t h := {|
  CreateApiOptions.tagTypes := None;
  CreateApiOptions.reducerPath := None;
  CreateApiOptions.serializeQueryArgs := Some (λ q, "key:" +:+ endpointName q);
  CreateApiOptions.endpoints := λ b, [];
  CreateApiOptions.keepUnusedDataFor := Some (JNum 5);
  CreateApiOptions.refetchOnMountOrArgChange := None;
  CreateApiOptions.refetchOnFocus := None;
  CreateApiOptions.refetchOnReconnect := None;
  CreateApiOptions.invalidationBehavior := None;
  CreateApiOptions.extractRehydrationInfo := None;
|}.

(** Options whose [extractRehydrationInfo] depends on the world and
    changes it: it finds state in every other action it is shown. *)
Definition rehydrating_options : @CreateApiOptions.t production := {|
  CreateApiOptions.tagTypes := None;
  CreateApiOptions.reducerPath := None;
  CreateApiOptions.serializeQueryArgs := None;
  CreateApiOptions.endpoints := λ b, [];
  CreateApiOptions.keepUnusedDataFor := None;
  CreateApiOptions.refetchOnMountOrArgChange := None;
  CreateApiOptions.refetchOnFocus := None;
  CreateApiOptions.refetchOnReconnect := None;
  CreateApiOptions.invalidationBehavior := None;
  CreateApiOptions.extractRehydrationInfo :=
    Some (λ action reducerPath (w : @World production),
      (if Nat.even (w : nat) then JObj (action_fields action) else JNull,
       S w : @World production));
|}.

(** The world moves on. *)
Definition tick : @ApiCall production :=
  @ChangeWorld production (S : nat → nat).

(** A query of [getPosts] whose definition has the [serializeQueryArgs]
    function [f]. *)
Definition keyed_query (f : FunRef) : QueryArgsApi := {|
  queryArgs := JStr "page-1";
  endpointDefinition :=
    <["serializeQueryArgs" := JFun f]> (query build getPosts);
  endpointName := "getPosts";
|}.

Definition plain_query : QueryArgsApi := {|
  queryArgs := JStr "page-1";
  endpointDefinition := query build getPosts;
  endpointName := "getPosts";
|}.

(** The api of [posts_options] with the modules [core] and [react], in
    production; [2] is the identity of its [api] object. *)
Definition posts_api : ApiState (H := production) :=
  (createApi (H := production) [core; react] (posts_options production)
     1%positive 2%positive 0).2.

End Scenario.

(** * Properties *)

(** ** The monad *)

Section MonadFacts.
Context `{Host}.

Lemma bind_returned {A B} (m : M A) (f : A → M B) st a st' :
  m st = (Returned a, st') → (m ≫= f) st = f a st'.
Proof. intros Hm. unfold mbind, M_bind. by rewrite Hm. Qed.

Lemma for_of_cons {A} (x : A) l (body : A → M ()) st :
  for_of (x :: l) body st =
  match body x st with
  | (Returned _, st') => for_of l body st'
  | (Thrown e, st') => (Thrown e, st')
  | (Beyond, st') => (Beyond, st')
  end.
Proof. reflexivity. Qed.

End MonadFacts.

(** ** [context.batch] *)

(** C8: [context.batch(fn)] does what one call of [fn] does and nothing
    more: the variables of the api after it are those after [fn] alone, it
    returns [undefined] when [fn] returns and throws what [fn] throws; a
    callback that logs one event leaves exactly one more event in the
    log. *)
Theorem batch_calls_fn_once `{Host} {A} (fn : M A) (st : ApiState) :
  batch fn st =
    match fn st with
    | (Returned _, st') => (Returned JUndefined, st')
    | (Thrown e, st') => (Thrown e, st')
    | (Beyond, st') => (Beyond, st')
    end
  ∧ ∀ e, batch (emit e) st = (Returned JUndefined, set_log (λ l, l ++ [e]) st).
Proof.
  split.
  - unfold batch, mbind, M_bind. by destruct (fn st) as [[a|e|] st'].
  - reflexivity.
Qed.

(** ** Properties of objects *)

Lemma has_property_own {A} (k : string) (o : gmap string A) :
  k ∉ Object_prototype →
  has_property k o = bool_decide (is_Some (o !! k)).
Proof.
  intros Hk. unfold has_property.
  rewrite (bool_decide_eq_false_2 _ Hk). apply orb_false_r.
Qed.

Lemma has_property_lookup {A} (k : string) (o : gmap string A) :
  is_Some (o !! k) → has_property k o = true.
Proof.
  intros Hk. unfold has_property. by rewrite (bool_decide_eq_true_2 _ Hk).
Qed.

Lemma has_property_false {A} (k : string) (o : gmap string A) :
  has_property k o = false ↔ o !! k = None ∧ k ∉ Object_prototype.
Proof.
  unfold has_property.
  rewrite orb_false_iff, !bool_decide_eq_false, <- eq_None_not_Some. done.
Qed.

Lemma has_property_inherited {A} (k : string) (o : gmap string A) :
  k ∈ Object_prototype → has_property k o = true.
Proof.
  intros Hk. unfold has_property.
  rewrite (bool_decide_eq_true_2 _ Hk). apply orb_true_r.
Qed.

Lemma proto_inherited : "__proto__" ∈ Object_prototype.
Proof. apply (bool_decide_unpack (_ ∈ Object_prototype)). by vm_compute. Qed.

(** ** The object [context.endpointDefinitions] *)

Section Chain.
Context `{Host}.

Lemma in_endpointDefinitions_own k st :
  is_Some (endpointDefinitions st !! k) → in_endpointDefinitions k st = true.
Proof.
  intros Hk. unfold in_endpointDefinitions.
  by rewrite (bool_decide_eq_true_2 _ Hk).
Qed.

(** Whatever the prototype is, the chain ends in [Object.prototype]. *)
Lemma in_endpointDefinitions_inherited k st :
  k ∈ Object_prototype → in_endpointDefinitions k st = true.
Proof.
  intros Hk. unfold in_endpointDefinitions.
  destruct (prototype st) as [d|].
  - rewrite has_property_inherited by done. apply orb_true_r.
  - rewrite (bool_decide_eq_true_2 _ Hk). apply orb_true_r.
Qed.

Lemma in_endpointDefinitions_false k st :
  in_endpointDefinitions k st = false →
  endpointDefinitions st !! k = None ∧ (k ∉ Object_prototype) ∧ (k ≠ "__proto__").
Proof.
  intros Hk.
  assert (k ∉ Object_prototype) as Hout.
  { intros Hin. by rewrite in_endpointDefinitions_inherited in Hk. }
  split_and!; [|done|].
  - apply eq_None_not_Some. intros Hsome.
    by rewrite in_endpointDefinitions_own in Hk.
  - intros ->. apply Hout, proto_inherited.
Qed.

(** Without a replaced prototype, [in] finds the own names and those of
    [Object.prototype]. *)
Lemma in_endpointDefinitions_plain k st :
  prototype st = None →
  in_endpointDefinitions k st = has_property k (endpointDefinitions st).
Proof. intros Hp. unfold in_endpointDefinitions. by rewrite Hp. Qed.

Lemma assign_own k d st :
  k ≠ "__proto__" → assign k d st = set_endpointDefinitions <[k := d]> st.
Proof. intros Hk. unfold assign. by rewrite bool_decide_eq_false_2. Qed.

Lemma assign_frame k d st :
  tagTypes (assign k d st) = tagTypes st
  ∧ objects (assign k d st) = objects st
  ∧ extractCache (assign k d st) = extractCache st
  ∧ hasCache (assign k d st) = hasCache st
  ∧ log (assign k d st) = log st
  ∧ world (assign k d st) = world st.
Proof. unfold assign. by destruct (_ && _). Qed.

Lemma contents_assign k d st d' :
  contents (assign k d st) d' = contents st d'.
Proof.
  unfold contents. by destruct (assign_frame k d st) as (_ & -> & _).
Qed.

Lemma lookup_assign_ne k k' d st :
  k' ≠ k →
  endpointDefinitions (assign k' d st) !! k = endpointDefinitions st !! k.
Proof.
  intros Hne. unfold assign. destruct (_ && _); [done|].
  cbn. by rewrite lookup_insert_ne.
Qed.

Lemma lookup_assign_eq k d st :
  k ≠ "__proto__" → endpointDefinitions (assign k d st) !! k = Some d.
Proof. intros Hne. rewrite assign_own by done. cbn. apply lookup_insert_eq. Qed.

Lemma lookup_assign_is_Some k k' d st :
  is_Some (endpointDefinitions st !! k) →
  is_Some (endpointDefinitions (assign k' d st) !! k).
Proof.
  intros Hk. unfold assign. destruct (_ && _); [done|].
  cbn. rewrite lookup_insert_is_Some. destruct (decide (k' = k)); auto.
Qed.

(** After the assignment [in] finds the name. *)
Lemma in_assign_same k d st : in_endpointDefinitions k (assign k d st) = true.
Proof.
  destruct (decide (k = "__proto__")) as [->|Hk].
  - apply in_endpointDefinitions_inherited, proto_inherited.
  - apply in_endpointDefinitions_own. rewrite lookup_assign_eq by done.
    by eexists.
Qed.

(** The assignment of a name that [in] does not find makes an own
    property, and changes the answer of [in] for that name only. *)
Lemma in_assign_other k k' d st :
  k' ≠ "__proto__" → k ≠ k' →
  in_endpointDefinitions k (assign k' d st) = in_endpointDefinitions k st.
Proof.
  intros Hk' Hne. rewrite assign_own by done.
  unfold in_endpointDefinitions. cbn. by rewrite lookup_insert_ne.
Qed.

Lemma in_assign_mono k k' d st :
  k' ≠ "__proto__" →
  in_endpointDefinitions k st = true →
  in_endpointDefinitions k (assign k' d st) = true.
Proof.
  intros Hk' Hk. destruct (decide (k = k')) as [->|Hne].
  - apply in_assign_same.
  - by rewrite in_assign_other.
Qed.

Lemma in_set_log k f st :
  in_endpointDefinitions k (set_log f st) = in_endpointDefinitions k st.
Proof. reflexivity. Qed.

End Chain.

(** ** [optionsWithDefaults] *)

Section Defaults.
Context `{Host}.
Variable options : CreateApiOptions.

Lemma serializeQueryArgs_unfold (q : QueryArgsApi) :
  serializeQueryArgs (optionsWithDefaults options) q =
  match endpointDefinition q !! "serializeQueryArgs" with
  | Some (JFun f) =>
      match call_serializeQueryArgs f q with
      | JStr s => Returned s
      | initialResult =>
          Returned (defaultSerializeQueryArgs
            {| queryArgs := initialResult;
               endpointDefinition := endpointDefinition q;
               endpointName := endpointName q |})
      end
  | Some _ => Thrown TypeError
  | None =>
      match CreateApiOptions.serializeQueryArgs options with
      | Some optionsSQA => Returned (optionsSQA q)
      | None => Returned (defaultSerializeQueryArgs q)
      end
  end.
Proof.
  unfold optionsWithDefaults, serializeQueryArgs, prop.
  rewrite has_property_own
    by (apply (bool_decide_unpack (_ ∉ Object_prototype)); by vm_compute).
  destruct (endpointDefinition q !! "serializeQueryArgs") as [[| | | | |f|]|];
    cbn; try done.
  - by destruct (call_serializeQueryArgs f q).
  - by destruct (CreateApiOptions.serializeQueryArgs options).
Qed.

End Defaults.

(** C4: the function installed as [optionsWithDefaults.serializeQueryArgs]
    first looks for a [serializeQueryArgs] of the endpoint definition: the
    string it returns is the result, anything else it returns is given to
    [defaultSerializeQueryArgs] as [queryArgs]; without one, the
    [serializeQueryArgs] of the options is applied; without that,
    [defaultSerializeQueryArgs]. (A [serializeQueryArgs] property that holds
    no function cannot be called: a [TypeError].) *)
Theorem serializeQueryArgs_priority `{Host}
    (options : CreateApiOptions) (q : QueryArgsApi) :
  let installed := serializeQueryArgs (optionsWithDefaults options) in
  (∀ f s, endpointDefinition q !! "serializeQueryArgs" = Some (JFun f) →
     call_serializeQueryArgs f q = JStr s →
     installed q = Returned s)
  ∧ (∀ f, endpointDefinition q !! "serializeQueryArgs" = Some (JFun f) →
     (∀ s, call_serializeQueryArgs f q ≠ JStr s) →
     installed q =
       Returned (defaultSerializeQueryArgs
         {| queryArgs := call_serializeQueryArgs f q;
            endpointDefinition := endpointDefinition q;
            endpointName := endpointName q |}))
  ∧ (∀ optionsSQA, endpointDefinition q !! "serializeQueryArgs" = None →
     CreateApiOptions.serializeQueryArgs options = Some optionsSQA →
     installed q = Returned (optionsSQA q))
  ∧ (endpointDefinition q !! "serializeQueryArgs" = None →
     CreateApiOptions.serializeQueryArgs options = None →
     installed q = Returned (defaultSerializeQueryArgs q))
  ∧ (∀ v, endpointDefinition q !! "serializeQueryArgs" = Some v →
     (∀ f, v ≠ JFun f) →
     installed q = Thrown TypeError).
Proof.
  intros installed. subst installed.
  split_and!.
  - intros f s Hdef Hcall. rewrite serializeQueryArgs_unfold, Hdef, Hcall. done.
  - intros f Hdef Hcall. rewrite serializeQueryArgs_unfold, Hdef.
    destruct (call_serializeQueryArgs f q) as [| | | |s| |] eqn:E; try done.
    by destruct (Hcall s).
  - intros g Hdef Hopt. by rewrite serializeQueryArgs_unfold, Hdef, Hopt.
  - intros Hdef Hopt. by rewrite serializeQueryArgs_unfold, Hdef, Hopt.
  - intros v Hdef Hfun. rewrite serializeQueryArgs_unfold, Hdef.
    destruct v as [| | | | |f|]; try done. by destruct (Hfun f).
Qed.

Lemma serializeQueryArgs_priority_witness :
  let installed h o := serializeQueryArgs (optionsWithDefaults (H := h) o) in
  installed Scenario.production (Scenario.posts_options _) (Scenario.keyed_query 1%positive)
    = Returned "fixed-key"
  ∧ installed Scenario.production (Scenario.posts_options _) (Scenario.keyed_query 2%positive)
    = Returned "getPosts(true)"
  ∧ installed Scenario.production (Scenario.keyed_options _) Scenario.plain_query
    = Returned "key:getPosts"
  ∧ installed Scenario.production (Scenario.posts_options _) Scenario.plain_query
    = Returned "getPosts(page-1)".
Proof.
  intros installed. subst installed. cbv beta. split_and!.
  - apply (proj1 (serializeQueryArgs_priority (H := Scenario.production)
             (Scenario.posts_options _) (Scenario.keyed_query 1%positive)) 1%positive);
      reflexivity.
  - apply (proj1 (proj2 (serializeQueryArgs_priority (H := Scenario.production)
             (Scenario.posts_options _) (Scenario.keyed_query 2%positive))) 2%positive);
      [reflexivity|]. intros s. discriminate.
  - exact (proj1 (proj2 (proj2 (serializeQueryArgs_priority
             (H := Scenario.production)
             (Scenario.keyed_options _) Scenario.plain_query)))
             (λ q, "key:" +:+ endpointName q) eq_refl eq_refl).
  - apply (proj1 (proj2 (proj2 (proj2 (serializeQueryArgs_priority
             (H := Scenario.production)
             (Scenario.posts_options _) Scenario.plain_query)))));
      reflexivity.
Defined.

(** ** Injecting endpoints *)

Section Injection.
Context `{Host}.

Lemma set_log_app (st : ApiState) (l1 l2 : list Event) :
  set_log (λ l, l ++ l2) (set_log (λ l, l ++ l1) st)
  = set_log (λ l, l ++ (l1 ++ l2)) st.
Proof. unfold set_log; simpl. by rewrite (assoc_L (++)). Qed.

Lemma set_log_nil (st : ApiState) : set_log (λ l, l ++ []) st = st.
Proof. destruct st. unfold set_log; simpl. by rewrite app_nil_r. Qed.

Lemma init_unfold options context api m i st :
  init options context api m i st =
  (Returned {| position := i; of_module := m |},
   set_log (λ lg, lg ++ [ModuleInit i m api (optionsWithDefaults options) context])
     st).
Proof. reflexivity. Qed.

Lemma array_map_init options context api (l : list Module) (i : nat) st :
  array_map_from i (init options context api) l st =
  (Returned (imap (λ k m, {| position := i + k; of_module := m |}) l),
   set_log (λ lg, lg ++
     imap (λ k m, ModuleInit (i + k) m api (optionsWithDefaults options) context) l)
     st).
Proof.
  revert i st. induction l as [|m l IH]; intros i st.
  - cbn. by rewrite set_log_nil.
  - cbn [array_map_from]. unfold mbind at 1, M_bind at 1.
    rewrite init_unfold. unfold mbind, M_bind. rewrite IH. cbn [mret M_ret].
    rewrite set_log_app. cbn [imap]. rewrite Nat.add_0_r.
    rewrite (imap_ext ((λ k m, {| position := i + k; of_module := m |}) ∘ S)
               (λ k m, {| position := S i + k; of_module := m |}) l)
      by (intros; cbn; f_equal; lia).
    rewrite (imap_ext
               ((λ k m, ModuleInit (i + k) m api (optionsWithDefaults options) context) ∘ S)
               (λ k m, ModuleInit (S i + k) m api (optionsWithDefaults options) context) l)
      by (intros; cbn; f_equal; lia).
    done.
Qed.

Lemma for_of_injectEndpoint (ims : list InitializedModule) n d st :
  for_of ims (λ m, injectEndpoint m n d) st =
  (Returned (),
   set_log (λ lg, lg ++ map (λ m, ModuleInjectEndpoint (position m) n d) ims) st).
Proof.
  revert st. induction ims as [|m ims IH]; intros st.
  - cbn. by rewrite set_log_nil.
  - rewrite for_of_cons.
    change (injectEndpoint m n d st)
      with (Returned (), set_log (λ lg, lg ++ [ModuleInjectEndpoint (position m) n d]) st).
    cbv beta iota. rewrite IH, set_log_app. done.
Qed.

(** The check reads the definition and changes nothing; it returns or
    throws. *)
Lemma check_infiniteQueryOptions_state n d st :
  (check_infiniteQueryOptions n d st).2 = st
  ∧ (check_infiniteQueryOptions n d st).1 ≠ Beyond.
Proof.
  unfold check_infiniteQueryOptions, destructure, mbind, M_bind, lift, throw,
    mret, M_ret.
  repeat case_match; simplify_eq/=; done.
Qed.

(** What one turn of the loop does. *)
Lemma inject_entry_unfold ims inject n d st :
  inject_entry ims inject (n, d) st =
  if negb (exactly_true (overrideExisting inject))
     && in_endpointDefinitions n st
  then
    if is_string "throw" (overrideExisting inject)
    then (Thrown (Error (override_message n)), st)
    else (Returned (),
          if development
          then set_log (λ lg, lg ++ [ConsoleError (override_message n)]) st
          else st)
  else
    match (if development then (check_infiniteQueryOptions n (contents st d) st).1
           else Returned ()) with
    | Returned _ =>
        (Returned (),
         set_log (λ lg, lg ++ map (λ m, ModuleInjectEndpoint (position m) n d) ims)
           (assign n d st))
    | Thrown e => (Thrown e, st)
    | Beyond => (Beyond, st)
    end.
Proof.
  unfold inject_entry. unfold mbind at 1, M_bind at 1. cbn [get_state].
  destruct (negb _ && _).
  - destruct (is_string _ _); [done|]. by destruct development.
  - unfold mbind at 1, M_bind at 1.
    destruct development.
    + destruct (check_infiniteQueryOptions_state n (contents st d) st) as [Hst _].
      destruct (check_infiniteQueryOptions n (contents st d) st) as [[[]|e|] st1];
        cbn in Hst; subst st1; cbn [fst]; [|done|done].
      unfold mbind, M_bind. cbn [modify]. by rewrite for_of_injectEndpoint.
    + cbn [mret M_ret]. unfold mbind, M_bind. cbn [modify].
      by rewrite for_of_injectEndpoint.
Qed.

Section LoopFacts.
Variable ims : list InitializedModule.
Variable inject : Inject.

Lemma for_of_injected l st :
  ∃ new,
    injected ims inject l st (for_of l (inject_entry ims inject) st).1
      (for_of l (inject_entry ims inject) st).2 new.
Proof.
  revert st. induction l as [|[n d] l IH]; intros st.
  - eexists. constructor.
  - rewrite for_of_cons, inject_entry_unfold.
    destruct (negb (exactly_true (overrideExisting inject))
              && in_endpointDefinitions n st) eqn:Hexists.
    + apply andb_true_iff in Hexists as [Hov Hin].
      apply negb_true_iff in Hov.
      destruct (is_string "throw" (overrideExisting inject)) eqn:Hthrow.
      * eexists. by apply injected_refuse.
      * destruct (IH (set_log (λ lg, lg ++ complaint n) st)) as [new Hnew].
        exists (complaint n ++ new). apply injected_skip; try done.
        revert Hnew. unfold complaint. destruct development; [done|].
        by rewrite set_log_nil.
    + assert (exactly_true (overrideExisting inject) = true
              ∨ in_endpointDefinitions n st = false) as Hfresh.
      { apply andb_false_iff in Hexists as [Hov|Hin]; [left|by right].
        by apply negb_false_iff in Hov. }
      destruct development eqn:Hdev.
      * destruct (check_infiniteQueryOptions_state n (contents st d) st)
          as [_ Hnot].
        destruct (check_infiniteQueryOptions n (contents st d) st).1
          as [[]|e|] eqn:Hc; [| |done].
        -- destruct (IH (set_log (λ lg, lg ++ announce ims n d) (assign n d st)))
             as [new Hnew].
           eexists. apply injected_store; eauto.
        -- eexists. eapply injected_invalid; eauto.
      * destruct (IH (set_log (λ lg, lg ++ announce ims n d) (assign n d st)))
          as [new Hnew].
        eexists. apply injected_store; eauto. congruence.
Qed.

Lemma injectEndpoint_calls_app i n (l1 l2 : list Event) :
  injectEndpoint_calls i n (l1 ++ l2)
  = injectEndpoint_calls i n l1 ++ injectEndpoint_calls i n l2.
Proof. apply omap_app. Qed.

Lemma init_calls_app (l1 l2 : list Event) :
  init_calls (l1 ++ l2) = init_calls l1 ++ init_calls l2.
Proof. apply omap_app. Qed.

Lemma injectEndpoint_calls_complaint i n n' :
  injectEndpoint_calls i n (complaint n') = [].
Proof. unfold complaint. by destruct development. Qed.

Lemma init_calls_complaint n : init_calls (complaint n) = [].
Proof. unfold complaint. by destruct development. Qed.

Lemma init_calls_announce n d : init_calls (announce ims n d) = [].
Proof. unfold announce. by induction ims. Qed.

Lemma injectEndpoint_calls_announce_ne i n n' d :
  n ≠ n' → injectEndpoint_calls i n (announce ims n' d) = [].
Proof.
  intros Hne. unfold announce. induction ims as [|m l IH]; [done|].
  cbn. rewrite bool_decide_eq_false_2; [done|]. by intros [_ ?].
Qed.

Lemma injectEndpoint_calls_announce i n d :
  injectEndpoint_calls i n (announce ims n d)
  = omap (λ m, if bool_decide (position m = i) then Some d else None) ims.
Proof.
  unfold announce. induction ims as [|m l IH]; [done|].
  cbn. rewrite <- IH.
  destruct (decide (position m = i)) as [Hi|Hi].
  - rewrite !bool_decide_eq_true_2; done.
  - rewrite !bool_decide_eq_false_2; [done..|]. by intros [? _].
Qed.

(** The loop returns or throws. *)
Lemma injected_not_beyond l st r st' new :
  injected ims inject l st r st' new → r ≠ Beyond.
Proof. induction 1; done. Qed.

Lemma injected_log l st r st' new :
  injected ims inject l st r st' new → log st' = log st ++ new.
Proof.
  induction 1 as [st|n d l st ???|n d l st r st' new ??? _ IH|n d l st e ???
                 |n d l st r st' new ?? _ IH].
  - by rewrite app_nil_r.
  - by rewrite app_nil_r.
  - rewrite IH. cbn. by rewrite (assoc_L (++)).
  - by rewrite app_nil_r.
  - rewrite IH. cbn. destruct (assign_frame n d st) as (_ & _ & _ & _ & -> & _).
    by rewrite (assoc_L (++)).
Qed.

(** The loop writes to no definition and to none of the other variables. *)
Lemma injected_frame l st r st' new :
  injected ims inject l st r st' new →
  tagTypes st' = tagTypes st ∧ extractCache st' = extractCache st
  ∧ hasCache st' = hasCache st ∧ world st' = world st
  ∧ objects st' = objects st.
Proof.
  induction 1 as [st|n d l st ???|n d l st r st' new ??? _ IH|n d l st e ???
                 |n d l st r st' new ?? _ IH]; try done.
  destruct IH as (-> & -> & -> & -> & ->). cbn.
  destruct (assign_frame n d st) as (-> & -> & -> & -> & _ & ->). done.
Qed.

Lemma injected_contents l st r st' new d :
  injected ims inject l st r st' new → contents st' d = contents st d.
Proof.
  intros Hrun. unfold contents.
  by destruct (injected_frame _ _ _ _ _ Hrun) as (_ & _ & _ & _ & ->).
Qed.

Lemma injected_no_init l st r st' new :
  injected ims inject l st r st' new → init_calls new = [].
Proof.
  induction 1; try done.
  - by rewrite init_calls_app, init_calls_complaint.
  - by rewrite init_calls_app, init_calls_announce.
Qed.

(** A name that is not among the entries is not touched. *)
Lemma injected_other l st r st' new n :
  injected ims inject l st r st' new →
  n ∉ l.*1 →
  endpointDefinitions st' !! n = endpointDefinitions st !! n
  ∧ ∀ i, injectEndpoint_calls i n new = [].
Proof.
  induction 1 as [st|n0 d l st ???|n0 d l st r st' new ??? _ IH|n0 d l st e ???
                 |n0 d l st r st' new ?? _ IH]; intros Hn; try done.
  - rewrite fmap_cons, not_elem_of_cons in Hn. destruct Hn as [_ Hn].
    destruct (IH Hn) as [IH1 IH2]. split; [done|]. intros i.
    by rewrite injectEndpoint_calls_app, injectEndpoint_calls_complaint, IH2.
  - rewrite fmap_cons, not_elem_of_cons in Hn. destruct Hn as [Hne Hn].
    destruct (IH Hn) as [IH1 IH2]. split.
    + rewrite IH1. cbn. by rewrite lookup_assign_ne.
    + intros i. rewrite injectEndpoint_calls_app, IH2.
      by rewrite injectEndpoint_calls_announce_ne.
Qed.

(** Without [overrideExisting: true] the prototype stays, and a name that
    [in] finds stays found. *)
Lemma injected_prototype l st r st' new :
  injected ims inject l st r st' new →
  exactly_true (overrideExisting inject) = false →
  prototype st' = prototype st.
Proof.
  intros Hrun Hov.
  induction Hrun as [st|n0 d l st ???|n0 d l st r st' new ??? _ IH|n0 d l st e ???
                 |n0 d l st r st' new Hfresh ? _ IH]; try done.
  destruct Hfresh as [?|Hfresh]; [congruence|].
  apply in_endpointDefinitions_false in Hfresh as (_ & _ & Hproto).
  rewrite IH. cbn. by rewrite assign_own.
Qed.

Lemma injected_in l st r st' new n :
  injected ims inject l st r st' new →
  exactly_true (overrideExisting inject) = false →
  in_endpointDefinitions n st = true →
  in_endpointDefinitions n st' = true.
Proof.
  intros Hrun Hov.
  induction Hrun as [st|n0 d l st ???|n0 d l st r st' new ??? _ IH|n0 d l st e ???
                 |n0 d l st r st' new Hfresh ? _ IH]; intros Hn; try done.
  - by apply IH.
  - destruct Hfresh as [?|Hfresh]; [congruence|].
    apply in_endpointDefinitions_false in Hfresh as (_ & _ & Hproto).
    apply IH. rewrite in_set_log. by apply in_assign_mono.
Qed.

(** Without [overrideExisting: true] a registered definition stays. *)
Lemma injected_keep l st r st' new n old :
  injected ims inject l st r st' new →
  exactly_true (overrideExisting inject) = false →
  endpointDefinitions st !! n = Some old →
  endpointDefinitions st' !! n = Some old
  ∧ ∀ i, injectEndpoint_calls i n new = [].
Proof.
  intros Hrun Hov. revert old.
  induction Hrun as [st|n0 d l st ???|n0 d l st r st' new ??? _ IH|n0 d l st e ???
                 |n0 d l st r st' new Hfresh ? _ IH]; intros old Hn; try done.
  - destruct (IH old Hn) as [IH1 IH2]. split; [done|]. intros i.
    by rewrite injectEndpoint_calls_app, injectEndpoint_calls_complaint, IH2.
  - destruct Hfresh as [?|Hfresh]; [congruence|].
    apply in_endpointDefinitions_false in Hfresh as (Hfresh & _ & _).
    assert (n0 ≠ n) as Hne by congruence.
    destruct (IH old) as [IH1 IH2].
    { cbn. by rewrite lookup_assign_ne. }
    split; [done|]. intros i.
    rewrite injectEndpoint_calls_app, IH2.
    by rewrite injectEndpoint_calls_announce_ne.
Qed.

Lemma throw_not_true v : is_string "throw" v = true → exactly_true v = false.
Proof. by destruct v as [| |[]| | | |]. Qed.

(** With [overrideExisting: 'throw'] a name among the entries that is
    found in [context.endpointDefinitions] makes the loop throw. *)
Lemma injected_throw l st r st' new n :
  injected ims inject l st r st' new →
  is_string "throw" (overrideExisting inject) = true →
  n ∈ l.*1 →
  in_endpointDefinitions n st = true →
  ∃ e, r = Thrown e.
Proof.
  intros Hrun Hthrow.
  induction Hrun as [st|n0 d l st ???|n0 d l st r st' new ??? _ IH|n0 d l st e ???
                 |n0 d l st r st' new Hfresh ? _ IH]; intros Hin Hn.
  - by apply elem_of_nil in Hin.
  - eauto.
  - congruence.
  - eauto.
  - destruct Hfresh as [Htrue|Hfresh].
    { apply throw_not_true in Hthrow. congruence. }
    rewrite fmap_cons, elem_of_cons in Hin. destruct Hin as [Heq|Hin].
    { cbn in Heq. subst. congruence. }
    apply in_endpointDefinitions_false in Hfresh as (_ & _ & Hproto).
    apply IH; [done|]. rewrite in_set_log. by apply in_assign_mono.
Qed.

(** When the loop returns, every entry that is new or overriding is
    stored and announced; the name [__proto__] is not stored when it
    overrides. *)
Lemma injected_stored l st st' new n d :
  injected ims inject l st (Returned ()) st' new →
  NoDup l.*1 →
  (n, d) ∈ l →
  exactly_true (overrideExisting inject) = true ∧ n ≠ "__proto__"
  ∨ in_endpointDefinitions n st = false →
  endpointDefinitions st' !! n = Some d
  ∧ ∀ i, injectEndpoint_calls i n new
         = omap (λ m, if bool_decide (position m = i) then Some d else None) ims.
Proof.
  intros Hrun. remember (Returned ()) as r eqn:Hr.
  induction Hrun as [st|n0 d0 l st ???|n0 d0 l st r st' new Hov Hex ? Hrun IH
                 |n0 d0 l st e ???
                 |n0 d0 l st r st' new Hfresh ? Hrun IH]; intros Hnd Hin Hn;
    try done.
  - by apply elem_of_nil in Hin.
  - rewrite fmap_cons in Hnd. apply NoDup_cons in Hnd as [Hn0 Hnd].
    apply elem_of_cons in Hin as [Heq|Hin].
    { inversion Heq; subst n0 d0. destruct Hn as [[? _]|Hn]; congruence. }
    destruct (IH Hr Hnd Hin) as [IH1 IH2]; [done|].
    split; [done|]. intros i.
    by rewrite injectEndpoint_calls_app, injectEndpoint_calls_complaint, IH2.
  - rewrite fmap_cons in Hnd. apply NoDup_cons in Hnd as [Hn0 Hnd].
    assert (n ≠ "__proto__") as Hproto.
    { destruct Hn as [[_ ?]|Hn]; [done|].
      by apply in_endpointDefinitions_false in Hn as (_ & _ & ?). }
    apply elem_of_cons in Hin as [Heq|Hin].
    + inversion Heq; subst n0 d0.
      destruct (injected_other _ _ _ _ _ n Hrun Hn0) as [H1 H2].
      split.
      * rewrite H1. cbn. by apply lookup_assign_eq.
      * intros i. rewrite injectEndpoint_calls_app, H2, app_nil_r.
        apply injectEndpoint_calls_announce.
    + assert (n0 ≠ n) as Hne.
      { intros ->. apply Hn0. apply list_elem_of_fmap. by exists (n, d). }
      destruct (IH Hr Hnd Hin) as [IH1 IH2].
      { destruct (exactly_true (overrideExisting inject)) eqn:Hov; [by left|].
        right. destruct Hn as [[? _]|Hn]; [done|].
        destruct Hfresh as [?|Hfresh]; [done|].
        apply in_endpointDefinitions_false in Hfresh as (_ & _ & Hproto0).
        rewrite in_set_log. by rewrite in_assign_other. }
      split; [done|]. intros i.
      rewrite injectEndpoint_calls_app, IH2.
      by rewrite injectEndpoint_calls_announce_ne.
Qed.

(** The loop throws only where the code has a [throw]. *)
Lemma injected_thrown l st st' new e :
  injected ims inject l st (Thrown e) st' new →
  (is_string "throw" (overrideExisting inject) = true
   ∧ ∃ n, n ∈ l.*1 ∧ in_endpointDefinitions n st' = true
          ∧ e = Error (override_message n))
  ∨ (development = true
     ∧ ∃ n d, (n, d) ∈ l
         ∧ (check_infiniteQueryOptions n (contents st' d) st').1 = Thrown e).
Proof.
  intros Hrun. remember (Thrown e) as r eqn:Hr.
  induction Hrun as [st|n0 d0 l st ???|n0 d0 l st r st' new ??? _ IH
                 |n0 d0 l st e0 ???
                 |n0 d0 l st r st' new ?? _ IH]; try done.
  - left. split; [done|]. exists n0. rewrite fmap_cons.
    split_and!; [by left|done|congruence].
  - destruct (IH Hr) as [(?&n&?&?&?)|(?&n&d&?&?)]; [left|right]; split; try done.
    + exists n. rewrite fmap_cons. split_and!; [by right|done..].
    + exists n, d. split; [by right|done].
  - right. split; [done|]. exists n0, d0. split; [by left|congruence].
  - destruct (IH Hr) as [(?&n&?&?&?)|(?&n&d&?&?)]; [left|right]; split; try done.
    + exists n. rewrite fmap_cons. split_and!; [by right|done..].
    + exists n, d. split; [by right|done].
Qed.

End LoopFacts.

Lemma exactly_true_false v : exactly_true v = false ↔ v ≠ JBool true.
Proof. destruct v as [| |[]| | | |]; naive_solver. Qed.

Lemma exactly_true_true v : exactly_true v = true ↔ v = JBool true.
Proof. destruct v as [| |[]| | | |]; naive_solver. Qed.

Lemma is_string_true s v : is_string s v = true ↔ v = JStr s.
Proof.
  destruct v; cbn; try naive_solver.
  rewrite bool_decide_eq_true. naive_solver.
Qed.

Lemma injectEndpoints_unfold api ims inject st :
  injectEndpoints api ims inject st
  = match for_of (endpoints inject build) (inject_entry ims inject) st with
    | (Returned _, st') => (Returned api, st')
    | (Thrown e, st') => (Thrown e, st')
    | (Beyond, st') => (Beyond, st')
    end.
Proof. reflexivity. Qed.

(** [injectEndpoints] is its loop, followed by [return api]. *)
Lemma injectEndpoints_injected api ims inject st :
  ∃ r new,
    injected ims inject (endpoints inject build) st r
      (injectEndpoints api ims inject st).2 new
    ∧ (injectEndpoints api ims inject st).1
      = match r with
        | Returned _ => Returned api
        | Thrown e => Thrown e
        | Beyond => Beyond
        end.
Proof.
  destruct (for_of_injected ims inject (endpoints inject build) st) as [new Hrun].
  rewrite injectEndpoints_unfold.
  destruct (for_of _ _ st) as [[[]|e|] st'] eqn:E; cbn in Hrun |- *; eauto.
Qed.

Lemma omap_cons_unfold {A B} (f : A → option B) (x : A) (l : list A) :
  omap f (x :: l)
  = match f x with Some y => y :: omap f l | None => omap f l end.
Proof. reflexivity. Qed.

(** Each module is found once, at its index, among the initialized ones. *)
Lemma initialized_positions {D} (l : list Module) (j i : nat) (d : D) :
  omap (λ m, if bool_decide (position m = i) then Some d else None)
    (imap (λ k m, {| position := j + k; of_module := m |}) l)
  = if bool_decide (j ≤ i < j + length l) then [d] else [].
Proof.
  revert j. induction l as [|m l IH]; intros j.
  - cbn. rewrite bool_decide_eq_false_2; [done|lia].
  - cbn [imap length]. rewrite omap_cons_unfold. cbn [position].
    rewrite (imap_ext _ (λ k m, {| position := S j + k; of_module := m |}))
      by (intros; cbn; f_equal; lia).
    rewrite IH. repeat case_bool_decide; (done || lia).
Qed.

Lemma initialized_calls {D} (modules : list Module) (i : nat) (m : Module)
    (d : D) :
  modules !! i = Some m →
  omap (λ m, if bool_decide (position m = i) then Some d else None)
    (initialized modules) = [d].
Proof.
  intros Hi. apply lookup_lt_Some in Hi.
  unfold initialized.
  change (imap (λ i m, {| position := i; of_module := m |}) modules)
    with (imap (λ k m, {| position := 0 + k; of_module := m |}) modules).
  rewrite initialized_positions.
  rewrite bool_decide_eq_true_2; [done|lia].
Qed.

(** [createApi] initializes the modules, then injects the endpoints. *)
Lemma createApi_unfold modules options context api w :
  createApi modules options context api w =
  injectEndpoints api (initialized modules)
    {| endpoints := CreateApiOptions.endpoints options;
       overrideExisting := JUndefined |}
    (set_log (λ lg, lg ++
       imap (λ i m, ModuleInit i m api (optionsWithDefaults options) context)
         modules)
       (initial_state options w)).
Proof.
  unfold createApi, baseCreateApi, array_map.
  erewrite bind_returned; [|apply array_map_init]. done.
Qed.

Lemma init_calls_imap api (o : OptionsWithDefaults) context (l : list Module) j :
  init_calls (imap (λ i m, ModuleInit (j + i) m api o context) l)
  = imap (λ i m, (j + i, m, api, o, context)) l.
Proof.
  revert j. induction l as [|m l IH]; intros j; [done|].
  cbn. f_equal.
  rewrite (imap_ext _ (λ i m, ModuleInit (S j + i) m api o context))
    by (intros; cbn; f_equal; lia).
  rewrite (imap_ext ((λ i m, (j + i, m, api, o, context)) ∘ S)
             (λ i m, (S j + i, m, api, o, context)))
    by (intros; cbn; repeat f_equal; lia).
  apply IH.
Qed.

Lemma createApi_log modules options context api w :
  ∃ new,
    log (createApi modules options context api w).2
    = imap (λ i m, ModuleInit i m api (optionsWithDefaults options) context) modules
      ++ new
    ∧ init_calls new = [].
Proof.
  rewrite createApi_unfold.
  destruct (injectEndpoints_injected api (initialized modules)
    {| endpoints := CreateApiOptions.endpoints options;
       overrideExisting := JUndefined |}
    (set_log (λ lg, lg ++
       imap (λ i m, ModuleInit i m api (optionsWithDefaults options) context)
         modules)
       (initial_state options w))) as (r & new & Hrun & _).
  exists new. split; [|by eapply injected_no_init].
  by rewrite (injected_log _ _ _ _ _ _ _ Hrun).
Qed.

Lemma createApi_init_calls modules options context api w :
  init_calls (log (createApi modules options context api w).2)
  = imap (λ i m, (i, m, api, optionsWithDefaults options, context)) modules.
Proof.
  destruct (createApi_log modules options context api w) as (new & -> & Hnew).
  rewrite init_calls_app, Hnew, app_nil_r.
  apply (init_calls_imap api _ context modules 0).
Qed.

End Injection.


(** An endpoint named like a property of [Object.prototype] is found by
    [in] before anything is registered, and is skipped. *)
Example inherited_name_is_skipped :
  let run :=
    createApi (H := Scenario.production) [Scenario.core]
      (Scenario.options
         (λ b, [("constructor", Object_at 20%positive (query b Scenario.getPosts))]))
      1%positive 2%positive 0 in
  run.1 = Returned 2%positive
  ∧ endpointDefinitions run.2 !! "constructor" = None
  ∧ injectEndpoint_calls 0 "constructor" (log run.2) = [].
Proof. vm_compute. done. Qed.

(** With [overrideExisting: true] an endpoint named [__proto__] is not
    stored: its definition becomes the prototype of
    [context.endpointDefinitions], and from then on [in] finds the names of
    its properties. Here a later endpoint named [type] is skipped. *)
Example replaced_prototype_is_searched :
  let first :=
    injectEndpoints (H := Scenario.production) 2%positive
      (initialized [Scenario.core])
      {| endpoints := λ b,
           [("__proto__", Object_at 24%positive (query b Scenario.getPosts))];
         overrideExisting := JBool true |} Scenario.posts_api in
  let second :=
    injectEndpoints (H := Scenario.production) 2%positive
      (initialized [Scenario.core])
      {| endpoints := λ b,
           [("type", Object_at 25%positive (query b Scenario.getPosts))];
         overrideExisting := JUndefined |} first.2 in
  endpointDefinitions first.2 !! "__proto__" = None
  ∧ prototype first.2
    = Some (Object_at 24%positive (query build Scenario.getPosts))
  ∧ in_endpointDefinitions "type" Scenario.posts_api = false
  ∧ in_endpointDefinitions "type" first.2 = true
  ∧ second.1 = Returned 2%positive
  ∧ endpointDefinitions second.2 !! "type" = None
  ∧ injectEndpoint_calls 0 "type" (log second.2) = [].
Proof. vm_compute. done. Qed.



(** C3: a name given to [injectEndpoints] that is already registered.
    Unless [overrideExisting] is [true] its definition stays as it was and
    no module's [injectEndpoint] is called for it; with [overrideExisting:
    'throw'] the call throws (outside development mode, the [Error] of the
    override message); with [overrideExisting: true] a call that returns
    has replaced the definition (of a name that can be assigned: not
    [__proto__]). *)
Theorem injectEndpoints_keeps_existing `{Host} (modules : list Module)
    (api : ObjRef) (inject : Inject) (st : ApiState) (n : string)
    (old : EndpointDefinition) :
  let run := injectEndpoints api (initialized modules) inject st in
  n ∈ (endpoints inject build).*1 →
  endpointDefinitions st !! n = Some old →
  (overrideExisting inject ≠ JBool true →
     endpointDefinitions run.2 !! n = Some old
     ∧ contents run.2 old = contents st old
     ∧ ∃ new, log run.2 = log st ++ new
         ∧ ∀ i, injectEndpoint_calls i n new = [])
  ∧ (overrideExisting inject = JStr "throw" →
     ∃ e, run.1 = Thrown e
       ∧ (development = false →
          ∃ n', n' ∈ (endpoints inject build).*1
            ∧ e = Error (override_message n')))
  ∧ (overrideExisting inject = JBool true →
     n ≠ "__proto__" →
     NoDup (endpoints inject build).*1 →
     run.1 = Returned api →
     ∀ d, (n, d) ∈ endpoints inject build →
       endpointDefinitions run.2 !! n = Some d).
Proof.
  intros run Hin Hold. subst run.
  destruct (injectEndpoints_injected api (initialized modules) inject st)
    as (r & new & Hrun & Hr).
  split_and!.
  - intros Hov. apply exactly_true_false in Hov.
    destruct (injected_keep _ _ _ _ _ _ _ n old Hrun Hov Hold) as [Hst Hcalls].
    split_and!; [done|by eapply injected_contents|].
    exists new. split; [by eapply injected_log|done].
  - intros Hov. apply is_string_true in Hov.
    destruct (injected_throw _ _ _ _ _ _ _ n Hrun Hov Hin) as [e ->].
    { apply in_endpointDefinitions_own. by eexists. }
    exists e. split; [done|]. intros Hdev.
    destruct (injected_thrown _ _ _ _ _ _ _ Hrun)
      as [(_ & n' & Hn' & _ & ->)|(Hdev' & _)]; [by exists n'|congruence].
  - intros Hov Hproto Hnd Hret d Hd. apply exactly_true_true in Hov.
    rewrite Hr in Hret. destruct r as [[]|e|]; [|discriminate..].
    by destruct (injected_stored _ _ _ _ _ _ n d Hrun Hnd Hd); [left|].
Qed.

Lemma injectEndpoints_keeps_existing_witness :
  let run ov :=
    injectEndpoints (H := Scenario.production) 2%positive
      (initialized [Scenario.core; Scenario.react])
      (Scenario.more_endpoints ov) Scenario.posts_api in
  let old := Object_at 20%positive (query build Scenario.getPosts) in
  "getPosts" ∈ (endpoints (Scenario.more_endpoints JUndefined) build).*1
  ∧ endpointDefinitions Scenario.posts_api !! "getPosts" = Some old
  ∧ endpointDefinitions (run JUndefined).2 !! "getPosts" = Some old
  ∧ (∃ e, (run (JStr "throw")).1 = Thrown e)
  ∧ endpointDefinitions (run (JBool true)).2 !! "getPosts"
    = Some (Object_at 23%positive
              (query build (<["keepUnusedDataFor" := JNum 5]> Scenario.getPosts))).
Proof.
  intros run old.
  assert ("getPosts" ∈ (endpoints (Scenario.more_endpoints JUndefined) build).*1)
    as Hin by (cbn; apply elem_of_cons; left; reflexivity).
  assert (endpointDefinitions Scenario.posts_api !! "getPosts" = Some old) as Hold
    by (vm_compute; reflexivity).
  split; [exact Hin|]. split; [exact Hold|]. split_and!.
  - destruct (injectEndpoints_keeps_existing (H := Scenario.production)
                [Scenario.core; Scenario.react] 2%positive
                (Scenario.more_endpoints JUndefined) Scenario.posts_api
                "getPosts" _ Hin Hold) as (Hkeep & _ & _).
    apply Hkeep. cbn. discriminate.
  - destruct (injectEndpoints_keeps_existing (H := Scenario.production)
                [Scenario.core; Scenario.react] 2%positive
                (Scenario.more_endpoints (JStr "throw")) Scenario.posts_api
                "getPosts" _ Hin Hold) as (_ & Hthrow & _).
    destruct (Hthrow eq_refl) as (e & He & _). by exists e.
  - destruct (injectEndpoints_keeps_existing (H := Scenario.production)
                [Scenario.core; Scenario.react] 2%positive
                (Scenario.more_endpoints (JBool true)) Scenario.posts_api
                "getPosts" _ Hin Hold) as (_ & _ & Hreplace).
    apply Hreplace.
    + reflexivity.
    + discriminate.
    + cbn. apply NoDup_cons. split; [|apply NoDup_singleton].
      rewrite list_elem_of_singleton. discriminate.
    + vm_compute. reflexivity.
    + cbn. apply elem_of_cons. left. reflexivity.
Defined.

(** C2, as stated, fails: in development mode [createApi] checks every
    infinite query definition and throws, instead of returning the api,
    when [maxPages] is a number below 1. *)
Lemma createApi_returns_api_counterexample :
  ¬ (∀ (H : Host) (modules : list Module) (options : CreateApiOptions)
       (context api : ObjRef) (w : World),
       modules ≠ [] →
       (buildCreateApi modules options context api w).1 = Returned api).
Proof.
  intros claim.
  specialize (claim Scenario.dev [Scenario.core] (Scenario.feed_options Scenario.dev)
    1%positive 2%positive 0).
  assert ((buildCreateApi (H := Scenario.dev) [Scenario.core]
             (Scenario.feed_options Scenario.dev) 1%positive 2%positive 0).1
          = Thrown (Error "maxPages for endpoint 'feed' must be a number greater than 0"))
    as Hthrown by (vm_compute; reflexivity).
  rewrite Hthrown in claim. by discriminate claim.
Qed.

(** C2: [createApi] calls the [init] of every module once, in the order of
    [modules], each with the api object, the options with defaults and the
    context; these calls come first in the log, and what follows is
    [injectEndpoints] on the endpoints of the options. It then returns the
    api object, unless, in development mode, the check of an infinite query
    definition throws. *)
Theorem createApi_initializes_modules `{Host} (modules : list Module)
    (options : CreateApiOptions) (context api : ObjRef) (w : World) :
  let run := buildCreateApi modules options context api w in
  let inits :=
    imap (λ i m, ModuleInit i m api (optionsWithDefaults options) context)
      modules in
  init_calls (log run.2)
    = imap (λ i m, (i, m, api, optionsWithDefaults options, context)) modules
  ∧ (∃ new, log run.2 = inits ++ new ∧ init_calls new = [])
  ∧ run = injectEndpoints api (initialized modules)
            {| endpoints := CreateApiOptions.endpoints options;
               overrideExisting := JUndefined |}
            (set_log (λ lg, lg ++ inits) (initial_state options w))
  ∧ (run.1 = Returned api
     ∨ development = true
       ∧ ∃ n d e, (n, d) ∈ CreateApiOptions.endpoints options build
           ∧ (check_infiniteQueryOptions n (definition_fields d) run.2).1
             = Thrown e
           ∧ run.1 = Thrown e).
Proof.
  intros run inits. subst run inits. unfold buildCreateApi. split_and!.
  - apply createApi_init_calls.
  - apply createApi_log.
  - apply createApi_unfold.
  - rewrite createApi_unfold.
    match goal with |- context [injectEndpoints api ?ims ?inj ?st] =>
      destruct (injectEndpoints_injected api ims inj st) as (r & new & Hrun & Hr)
    end.
    rewrite Hr. destruct r as [[]|e|]; [by left|right|].
    + destruct (injected_thrown _ _ _ _ _ _ _ Hrun)
        as [(Hthrow & _)|(Hdev & n & d & Hin & Hcheck)]; [done|].
      split; [done|]. exists n, d, e. split_and!; [done| |done].
      revert Hcheck. unfold contents.
      destruct (injected_frame _ _ _ _ _ _ _ Hrun) as (_ & _ & _ & _ & ->).
      cbn. by rewrite lookup_empty.
    + by destruct (injected_not_beyond _ _ _ _ _ _ _ Hrun).
Qed.

(** C5: [optionsWithDefaults.keepUnusedDataFor] is 60 when the options have
    no [keepUnusedDataFor] and the value of the options otherwise, and this
    is the value in the options with defaults that every module's [init]
    receives. *)
Theorem keepUnusedDataFor_default `{Host} (modules : list Module)
    (options : CreateApiOptions) (context api : ObjRef) (w : World) :
  match CreateApiOptions.keepUnusedDataFor options with
  | None => keepUnusedDataFor (optionsWithDefaults options) = JNum 60
  | Some v => keepUnusedDataFor (optionsWithDefaults options) = v
  end
  ∧ Forall (λ call, keepUnusedDataFor call.1.2
                    = keepUnusedDataFor (optionsWithDefaults options))
      (init_calls (log (buildCreateApi modules options context api w).2))
  ∧ length (init_calls (log (buildCreateApi modules options context api w).2))
    = length modules.
Proof.
  unfold buildCreateApi. split_and!.
  - cbn. by destruct (CreateApiOptions.keepUnusedDataFor options).
  - rewrite createApi_init_calls. apply Forall_forall.
    intros call Hcall. apply elem_of_lookup_imap in Hcall as (i & m & -> & _).
    done.
  - by rewrite createApi_init_calls, length_imap.
Qed.

(** ** [enhanceEndpoints] *)

Section Enhance.
Context `{Host}.

Lemma set_tagTypes_nil (st : ApiState) : set_tagTypes (λ l, l ++ []) st = st.
Proof. destruct st. unfold set_tagTypes; simpl. by rewrite app_nil_r. Qed.

Lemma set_tagTypes_app (st : ApiState) (l1 l2 : list string) :
  set_tagTypes (λ l, l ++ l2) (set_tagTypes (λ l, l ++ l1) st)
  = set_tagTypes (λ l, l ++ (l1 ++ l2)) st.
Proof. unfold set_tagTypes; simpl. by rewrite (assoc_L (++)). Qed.

Lemma set_objects_id (st : ApiState) : set_objects (λ _, objects st) st = st.
Proof. by destruct st. Qed.

Lemma set_objects_twice (st : ApiState) (o1 o2 : gmap ObjRef JsObj) :
  set_objects (λ _, o2) (set_objects (λ _, o1) st) = set_objects (λ _, o2) st.
Proof. reflexivity. Qed.

(** The appended tag types, by recursion on [addTagTypes]. *)
Lemma appended_tags_cons (T : list string) (t : string) (r : list string) :
  appended_tags T (t :: r)
  = if bool_decide (t ∈ T) then appended_tags T r
    else t :: appended_tags (T ++ [t]) r.
Proof.
  unfold appended_tags. cbn [imap take]. rewrite app_nil_r, omap_cons_unfold.
  case_bool_decide as Ht; cbn [id].
  - f_equal. apply imap_ext. intros i x _. cbn.
    apply (f_equal (λ b : bool, if b then None else Some x)).
    apply bool_decide_ext. rewrite !elem_of_app, elem_of_cons. naive_solver.
  - f_equal. f_equal. apply imap_ext. intros i x _. cbn.
    by rewrite <- (assoc_L (++)).
Qed.

Lemma appended_tags_spec (A T : list string) :
  (∀ t, t ∈ appended_tags T A ↔ t ∈ A ∧ t ∉ T)
  ∧ appended_tags T A `sublist_of` A
  ∧ NoDup (appended_tags T A).
Proof.
  revert T. induction A as [|eT rest IH]; intros T.
  - split_and!; [|done|constructor].
    intros t. unfold appended_tags. cbn. rewrite elem_of_nil. naive_solver.
  - rewrite appended_tags_cons. case_bool_decide as Hin.
    + destruct (IH T) as (Hmem & Hsub & Hnd).
      split_and!; [|by apply sublist_cons|done].
      intros t. rewrite Hmem, elem_of_cons. naive_solver.
    + destruct (IH (T ++ [eT])) as (Hmem & Hsub & Hnd).
      split_and!; [|by apply sublist_skip|].
      * intros t. rewrite !elem_of_cons, Hmem.
        rewrite elem_of_app, list_elem_of_singleton.
        destruct (decide (t = eT)) as [->|]; naive_solver.
      * apply NoDup_cons. split; [|done].
        rewrite Hmem, elem_of_app, list_elem_of_singleton. naive_solver.
Qed.

(** The loop over [addTagTypes] pushes the appended tag types. *)
Lemma addTagTypes_loop (addTagTypes : list string) (st : ApiState) :
  for_of addTagTypes (λ eT,
    st ← get_state;
    if bool_decide (eT ∈ tagTypes st) then mret ()
    else modify (set_tagTypes (λ l, l ++ [eT]))) st
  = (Returned (),
     set_tagTypes (λ l, l ++ appended_tags (tagTypes st) addTagTypes) st).
Proof.
  revert st. induction addTagTypes as [|eT rest IH]; intros st.
  - cbn. by rewrite set_tagTypes_nil.
  - rewrite for_of_cons, appended_tags_cons.
    unfold mbind at 1, M_bind at 1. cbn [get_state].
    case_bool_decide as Hin.
    + cbn [mret M_ret]. apply IH.
    + cbn [modify]. rewrite IH, set_tagTypes_app. done.
Qed.

Lemma tags_loop (addTagTypes : option (list string)) (st : ApiState) :
  match addTagTypes with
  | Some addTagTypes =>
      for_of addTagTypes (λ eT,
        st ← get_state;
        if bool_decide (eT ∈ tagTypes st) then mret ()
        else modify (set_tagTypes (λ l, l ++ [eT])))
  | None => mret ()
  end st
  = (Returned (),
     set_tagTypes
       (λ l, l ++ appended_tags (tagTypes st) (default [] addTagTypes)) st).
Proof.
  destruct addTagTypes as [l|]; [apply addTagTypes_loop|].
  cbn. by rewrite set_tagTypes_nil.
Qed.

(** A read that finds a definition finds the one registered under the
    name, or the replaced prototype through [__proto__]. *)
Lemma read_definition n st d :
  read n st = FoundDefinition d →
  endpointDefinitions st !! n = Some d
  ∨ n = "__proto__" ∧ prototype st = Some d.
Proof.
  unfold read. destruct (endpointDefinitions st !! n) as [d'|].
  { intros [= ->]. by left. }
  destruct (prototype st) as [p|].
  - destruct (contents st p !! n); [done|].
    case_bool_decide; [|by case_bool_decide].
    intros [= ->]. by right.
  - case_bool_decide; [done|by case_bool_decide].
Qed.

Lemma read_registered n st d :
  endpointDefinitions st !! n = Some d → read n st = FoundDefinition d.
Proof. intros Hd. unfold read. by rewrite Hd. Qed.

Lemma write_unfold d fields st :
  write d fields st
  = (Returned (),
     set_objects (λ _, <[definition_ref d := fields]> (objects st)) st).
Proof. reflexivity. Qed.

(** [Object.assign] on a definition: it goes [Beyond], or it returns and
    the definition has the properties of the source over those it had; the
    property [__proto__] of the source counts where the definition has one
    of its own. *)
Lemma Object_assign_run d p st :
  (Object_assign d p st = (Beyond, st)
   ∧ contents st d !! "__proto__" = None
   ∧ ∃ v, p !! "__proto__" = Some v ∧ sets_prototype v = true)
  ∨ ∃ fields,
      Object_assign d p st
      = (Returned (),
         set_objects (λ _, <[definition_ref d := fields]> (objects st)) st)
      ∧ (∀ k, k ≠ "__proto__" →
           fields !! k
           = match p !! k with Some v => Some v | None => contents st d !! k end)
      ∧ fields !! "__proto__"
        = match contents st d !! "__proto__" with
          | Some old => Some (default old (p !! "__proto__"))
          | None => None
          end.
Proof.
  unfold Object_assign. unfold mbind, M_bind. cbn [get_state].
  assert (∀ (q : JsObj) k,
            (q ∪ contents st d) !! k
            = match q !! k with Some v => Some v | None => contents st d !! k end)
    as Hunion.
  { intros q k. rewrite lookup_union.
    destruct (q !! k), (contents st d !! k); done. }
  case_bool_decide as Hown.
  - right. eexists. split; [apply write_unfold|]. split.
    + intros k _. apply Hunion.
    + rewrite Hunion. destruct Hown as [old ->]. by destruct (p !! "__proto__").
  - apply eq_None_not_Some in Hown. rewrite Hown.
    destruct (p !! "__proto__") as [v|] eqn:Hp.
    + destruct (sets_prototype v) eqn:Hsets.
      * left. split_and!; [done|done|by exists v].
      * right. eexists. split; [apply write_unfold|]. split.
        -- intros k Hk. rewrite Hunion. by rewrite lookup_delete_ne.
        -- rewrite Hunion. by rewrite lookup_delete_eq.
    + right. eexists. split; [apply write_unfold|]. split.
      * intros k _. apply Hunion.
      * rewrite Hunion. by rewrite Hp.
Qed.

(** One turn of the loop writes to at most one object, the definition
    that the read finds, and throws only what an update function throws. *)
Lemma enhance_entry_run n pd st :
  ∃ r objs,
    enhance_entry (n, pd) st = (r, set_objects (λ _, objs) st)
    ∧ (∀ ref, (∀ d, read n st = FoundDefinition d → definition_ref d ≠ ref) →
         objs !! ref = objects st !! ref)
    ∧ (∀ e, r = Thrown e →
         ∃ f v, pd = UpdateFunction f ∧ call_enhancer f v = Thrown e).
Proof.
  unfold enhance_entry. unfold mbind at 1, M_bind at 1. cbn [get_state].
  destruct pd as [f|p]; destruct (read n st) as [d| |v] eqn:Hread.
  - unfold mbind, M_bind, lift.
    destruct (call_enhancer f (JObj (contents st d))) as [fields|e|] eqn:Hcall.
    + rewrite write_unfold. eexists _, _. split_and!; [done| |done].
      intros ref Href. rewrite lookup_insert_ne; [done|]. by apply Href.
    + exists (Thrown e), (objects st). rewrite set_objects_id.
      split_and!; [done|done|]. intros e' [= <-]. by eexists _, _.
    + exists Beyond, (objects st). rewrite set_objects_id. by split_and!.
  - exists Beyond, (objects st). rewrite set_objects_id. by split_and!.
  - destruct (is_object v).
    + exists Beyond, (objects st). rewrite set_objects_id. by split_and!.
    + unfold mbind, M_bind, lift.
      destruct (call_enhancer f v) as [fields|e|] eqn:Hcall.
      * exists (Returned ()), (objects st). rewrite set_objects_id.
        by split_and!.
      * exists (Thrown e), (objects st). rewrite set_objects_id.
        split_and!; [done|done|]. intros e' [= <-]. by eexists _, _.
      * exists Beyond, (objects st). rewrite set_objects_id. by split_and!.
  - destruct (Object_assign_run d p st) as [(-> & _)|(fields & -> & _)].
    + exists Beyond, (objects st). rewrite set_objects_id. by split_and!.
    + eexists _, _. split_and!; [done| |done].
      intros ref Href. rewrite lookup_insert_ne; [done|]. by apply Href.
  - exists Beyond, (objects st). rewrite set_objects_id. by split_and!.
  - destruct (truthy v).
    + exists Beyond, (objects st). rewrite set_objects_id. by split_and!.
    + exists (Returned ()), (objects st). rewrite set_objects_id.
      by split_and!.
Qed.

(** The loop over [endpoints] writes to definitions only: to those
    registered under the names given and, where [__proto__] is among them,
    to the replaced prototype. *)
Lemma enhance_loop_run (l : JsRecord PartialDefinition) (st : ApiState) :
  ∃ r objs,
    for_of l enhance_entry st = (r, set_objects (λ _, objs) st)
    ∧ (∀ ref,
         (∀ n d, n ∈ l.*1 → endpointDefinitions st !! n = Some d →
                 definition_ref d ≠ ref) →
         ("__proto__" ∈ l.*1 → ∀ d, prototype st = Some d →
                 definition_ref d ≠ ref) →
         objs !! ref = objects st !! ref)
    ∧ (∀ e, r = Thrown e →
         ∃ n f v, (n, UpdateFunction f) ∈ l ∧ call_enhancer f v = Thrown e)
    ∧ (l = [] → r = Returned ()).
Proof.
  revert st. induction l as [|[n pd] l IH]; intros st.
  - exists (Returned ()), (objects st). rewrite set_objects_id.
    by split_and!.
  - rewrite for_of_cons.
    destruct (enhance_entry_run n pd st) as (r1 & objs1 & -> & Hother1 & Hthrown1).
    assert (∀ ref,
              (∀ n0 d, n0 ∈ ((n, pd) :: l).*1 →
                       endpointDefinitions st !! n0 = Some d →
                       definition_ref d ≠ ref) →
              ("__proto__" ∈ ((n, pd) :: l).*1 → ∀ d, prototype st = Some d →
                       definition_ref d ≠ ref) →
              objs1 !! ref = objects st !! ref) as Hobjs1.
    { intros ref Hown Hproto. apply Hother1. intros d Hread.
      apply read_definition in Hread as [Hd|[-> Hd]].
      - apply (Hown n d); [|done]. rewrite fmap_cons. by left.
      - apply Hproto; [|done]. rewrite fmap_cons. by left. }
    destruct r1 as [[]|e|].
    + destruct (IH (set_objects (λ _, objs1) st))
        as (r & objs & -> & Hother & Hthrown & _).
      exists r, objs. rewrite set_objects_twice. split_and!; [done| | |done].
      * intros ref Hown Hproto. rewrite Hother.
        -- cbn. by apply Hobjs1.
        -- intros n0 d Hn0. cbn. apply Hown. rewrite fmap_cons. by right.
        -- intros Hin d. cbn. apply Hproto. rewrite fmap_cons. by right.
      * intros e He. destruct (Hthrown e He) as (n0 & f & v & Hin & Hcall).
        exists n0, f, v. split; [by right|done].
    + exists (Thrown e), objs1. split_and!; [done|done| |done].
      intros e' [= <-]. destruct (Hthrown1 e eq_refl) as (f & v & -> & Hcall).
      exists n, f, v. split; [by left|done].
    + exists Beyond, objs1. by split_and!.
Qed.

Lemma enhance_loop_returns (l : JsRecord PartialDefinition) (st : ApiState) :
  Forall (ordinary st) l → (for_of l enhance_entry st).1 = Returned ().
Proof.
  revert st. induction l as [|[n pd] l IH]; intros st Hall; [done|].
  apply Forall_cons in Hall as [[[d Hd] Hpd] Hall]. cbn in Hd, Hpd.
  rewrite for_of_cons.
  destruct (enhance_entry_run n pd st) as (r1 & objs1 & Hrun & _).
  assert (r1 = Returned ()) as ->.
  { revert Hrun. unfold enhance_entry. unfold mbind at 1, M_bind at 1.
    cbn [get_state]. rewrite (read_registered n st d Hd).
    destruct pd as [f|p].
    - unfold mbind, M_bind, lift.
      destruct (Hpd (JObj (contents st d))) as [fields ->].
      rewrite write_unfold. by intros [= <- _].
    - destruct (Object_assign_run d p st)
        as [(_ & _ & v & Hv & _)|(fields & -> & _)]; [congruence|].
      by intros [= <- _]. }
  rewrite Hrun. apply IH. by eapply Forall_impl.
Qed.

(** [enhanceEndpoints] appends to the tag types and writes to
    definitions, and touches nothing else; when it returns, it returns
    [api]. *)
Lemma enhanceEndpoints_run (api : ObjRef) (addTagTypes : option (list string))
    (endpoints : option (JsRecord PartialDefinition)) (st : ApiState) :
  ∃ r objs,
    enhanceEndpoints api addTagTypes endpoints st
    = (match r with
       | Returned _ => Returned api
       | Thrown e => Thrown e
       | Beyond => Beyond
       end,
       set_objects (λ _, objs)
         (set_tagTypes
            (λ l, l ++ appended_tags (tagTypes st) (default [] addTagTypes)) st))
    ∧ (∀ ref,
         (∀ n d, n ∈ (default [] endpoints).*1 →
                 endpointDefinitions st !! n = Some d →
                 definition_ref d ≠ ref) →
         ("__proto__" ∈ (default [] endpoints).*1 →
          ∀ d, prototype st = Some d → definition_ref d ≠ ref) →
         objs !! ref = objects st !! ref)
    ∧ (∀ e, r = Thrown e →
         ∃ n f v, (n, UpdateFunction f) ∈ default [] endpoints
                  ∧ call_enhancer f v = Thrown e)
    ∧ (default [] endpoints = [] → r = Returned ())
    ∧ (Forall (ordinary st) (default [] endpoints) → r = Returned ()).
Proof.
  unfold enhanceEndpoints.
  erewrite bind_returned; [|apply tags_loop].
  set (st1 := set_tagTypes _ st).
  destruct endpoints as [l|]; cbn [default].
  - destruct (enhance_loop_run l st1) as (r & objs & Hloop & Hother & Hthrown & Hnil).
    exists r, objs. unfold Object_entries, mbind, M_bind. rewrite Hloop.
    split_and!; [by destruct r as [[]| |]|done..|].
    intros Hall. pose proof (enhance_loop_returns l st1 Hall) as Hret.
    rewrite Hloop in Hret. by destruct r as [[]| |].
  - exists (Returned ()), (objects st). split_and!; [|done..].
    unfold mbind, M_bind. cbn [mret M_ret].
    by rewrite <- (set_objects_id st1) at 1.
Qed.

End Enhance.




(** An update function given for a name that is not registered is called
    with [undefined]; where it throws, as one that sets a property of its
    argument does, the tag types have been appended and the call throws. *)
Example update_function_on_undefined :
  let run :=
    enhanceEndpoints (H := Scenario.production) 2%positive
      (Some ["User"]) (Some [("missing", UpdateFunction 30%positive)])
      Scenario.posts_api in
  read "missing" Scenario.posts_api = FoundValue JUndefined
  ∧ run.1 = Thrown TypeError
  ∧ tagTypes run.2 = ["Post"; "User"].
Proof. vm_compute. done. Qed.

(** ** The memoized [extractRehydrationInfo] and [hasRehydrationInfo] *)

Section Rehydration.
Context `{Host}.
Variable modules : list Module.
Variable options : CreateApiOptions.
Variable api : ObjRef.

Lemma discard_result {A B} (m : M A) (b : B) (st : ApiState) :
  ((m ;; mret b) st).2 = (m st).2.
Proof. unfold mbind, M_bind. by destruct (m st) as [[a|e|] st']. Qed.

(** A cached result is returned as it is, and nothing changes. *)
Lemma extractRehydrationInfo_hit action st v :
  extractCache st !! action_ref action = Some v →
  extractRehydrationInfo options action st = (Returned v, st).
Proof.
  intros Hc. unfold extractRehydrationInfo, weakMapMemoize. by rewrite Hc.
Qed.

(** Without a cached result, the [extractRehydrationInfo] of the options is
    called, with the action and the [reducerPath], and its result is
    returned and cached. *)
Lemma extractRehydrationInfo_miss action st :
  extractCache st !! action_ref action = None →
  ∃ v w,
    match CreateApiOptions.extractRehydrationInfo options with
    | Some f =>
        f action
          (nullish_coalesce (CreateApiOptions.reducerPath options) (JStr "api"))
          (world st) = (v, w)
    | None => v = JUndefined ∧ w = world st
    end
    ∧ extractRehydrationInfo options action st
      = (Returned v,
         set_extractCache (<[action_ref action := v]> (extractCache st))
           (set_world w st)).
Proof.
  intros Hc. unfold extractRehydrationInfo, weakMapMemoize. rewrite Hc.
  destruct (CreateApiOptions.extractRehydrationInfo options) as [f|].
  - destruct (f action _ (world st)) as [result w]. by exists result, w.
  - exists JUndefined, (world st). split; [done|]. cbn. by destruct st.
Qed.

Lemma extractRehydrationInfo_run action st :
  ∃ v st',
    extractRehydrationInfo options action st = (Returned v, st')
    ∧ extractCache st' = <[action_ref action := v]> (extractCache st)
    ∧ hasCache st' = hasCache st
    ∧ (extractCache st !! action_ref action = None
       ∨ extractCache st !! action_ref action = Some v)
    ∧ (extractCache st !! action_ref action = None →
       returned_by_options options (action_ref action) v).
Proof.
  destruct (extractCache st !! action_ref action) as [v|] eqn:Hc.
  - exists v, st. rewrite (extractRehydrationInfo_hit _ _ _ Hc).
    split_and!; [done|by rewrite insert_id|done|by right|done].
  - destruct (extractRehydrationInfo_miss action st Hc) as (v & w & Hf & ->).
    exists v. eexists. split_and!; [done|done|done|by left|].
    intros _. unfold returned_by_options.
    destruct (CreateApiOptions.extractRehydrationInfo options) as [f|].
    + exists (action_fields action), (world st).
      destruct action as [r fields]. cbn. by rewrite Hf.
    + by destruct Hf.
Qed.

Lemma extractRehydrationInfo_agree action st :
  caches_agree options st →
  caches_agree options (extractRehydrationInfo options action st).2
  ∧ caches_grow st (extractRehydrationInfo options action st).2.
Proof.
  intros [Hhas Hnone].
  destruct (extractRehydrationInfo_run action st)
    as (v & st' & -> & Hcache & Hsame & Hwas & Hundef). cbn [snd].
  assert (extractCache st ⊆ extractCache st') as Hsub.
  { rewrite Hcache. destruct Hwas as [Hwas|Hwas].
    - by apply insert_subseteq.
    - by rewrite insert_id. }
  split; [split|split].
  - intros r b Hb. rewrite Hsame in Hb.
    destruct (Hhas r b Hb) as (v' & Hv' & ->).
    exists v'. split; [|done]. by eapply lookup_weaken.
  - intros r v' Hv'. rewrite Hcache in Hv'.
    destruct (decide (action_ref action = r)) as [<-|Hne].
    + rewrite lookup_insert_eq in Hv'. injection Hv' as <-.
      destruct Hwas as [Hwas|Hwas]; [by apply Hundef|by eapply Hnone].
    + rewrite lookup_insert_ne in Hv' by done. by eapply Hnone.
  - done.
  - by rewrite Hsame.
Qed.

(** [hasRehydrationInfo] answers with the test of what
    [extractRehydrationInfo] returns for the action. *)
Lemma hasRehydrationInfo_run action st :
  caches_agree options st →
  ∃ v st1 st',
    extractRehydrationInfo options action st = (Returned v, st1)
    ∧ hasRehydrationInfo options action st = (Returned (negb (nullish v)), st')
    ∧ extractCache st' !! action_ref action = Some v
    ∧ caches_agree options st'
    ∧ caches_grow st st'.
Proof.
  intros Hagree.
  destruct (extractRehydrationInfo_agree action st Hagree) as [Hagree1 Hgrow1].
  destruct (extractRehydrationInfo_run action st)
    as (v & st1 & Hrun & Hcache & Hsame & Hwas & Hundef).
  rewrite Hrun in Hagree1, Hgrow1. cbn [snd] in Hagree1, Hgrow1.
  exists v, st1.
  unfold hasRehydrationInfo, weakMapMemoize.
  destruct (hasCache st !! action_ref action) as [b|] eqn:Hb.
  - exists st. destruct Hagree as [Hhas Hnone].
    destruct (Hhas _ _ Hb) as (v' & Hv' & ->).
    rewrite (extractRehydrationInfo_hit _ _ _ Hv') in Hrun.
    injection Hrun as <- <-.
    split_and!; [by apply extractRehydrationInfo_hit|done|done|done|done].
  - erewrite bind_returned; [|exact Hrun]. cbn [mret M_ret].
    eexists. split_and!; [done|done| | |].
    + cbn. rewrite Hcache. apply lookup_insert_eq.
    + destruct Hagree1 as [Hhas1 Hnone1]. split; [|done].
      intros r b. cbn.
      destruct (decide (action_ref action = r)) as [<-|Hne].
      * rewrite lookup_insert_eq. intros [= <-]. exists v. split; [|done].
        rewrite Hcache. apply lookup_insert_eq.
      * rewrite lookup_insert_ne by done. apply Hhas1.
    + destruct Hgrow1 as [He Hh]. split; [done|]. cbn.
      rewrite Hsame. by apply insert_subseteq.
Qed.

Lemma caches_grow_refl st : caches_grow st st.
Proof. by split. Qed.

Lemma caches_grow_trans st1 st2 st3 :
  caches_grow st1 st2 → caches_grow st2 st3 → caches_grow st1 st3.
Proof. intros [??] [??]. split; by etrans. Qed.

(** No call loses or changes a cached result. *)
Lemma perform_agree (c : ApiCall) (st : ApiState) :
  caches_agree options st →
  caches_agree options (perform modules options api c st).2
  ∧ caches_grow st (perform modules options api c st).2.
Proof.
  revert st.
  induction c as [inject|addTagTypes endpoints|action|action|fn IH|f];
    intros st Hagree; cbn [perform].
  - rewrite discard_result.
    destruct (injectEndpoints_injected api (initialized modules) inject st)
      as (r & new & Hrun & _).
    destruct (injected_frame _ _ _ _ _ _ _ Hrun) as (_ & He & Hh & _).
    unfold caches_agree, caches_grow. rewrite He, Hh. by split.
  - rewrite discard_result.
    destruct (enhanceEndpoints_run api addTagTypes endpoints st)
      as (r & objs & -> & _). by split.
  - rewrite discard_result. by apply extractRehydrationInfo_agree.
  - rewrite discard_result.
    destruct (hasRehydrationInfo_run action st Hagree)
      as (v & st1 & st' & _ & -> & _ & ? & ?). by split.
  - rewrite discard_result. unfold batch. rewrite discard_result. by apply IH.
  - by split.
Qed.

Lemma after_agree (calls : list ApiCall) (st : ApiState) :
  caches_agree options st →
  caches_agree options (after modules options api calls st)
  ∧ caches_grow st (after modules options api calls st).
Proof.
  revert st. induction calls as [|c calls IH]; intros st Hagree.
  - split; [done|apply caches_grow_refl].
  - destruct (perform_agree c st Hagree) as [Hagree1 Hgrow1].
    destruct (IH _ Hagree1) as [Hagree2 Hgrow2].
    split; [done|]. by eapply caches_grow_trans.
Qed.

(** A new api has cached nothing. *)
Lemma createApi_agree context w :
  caches_agree options (createApi modules options context api w).2.
Proof.
  rewrite createApi_unfold.
  match goal with |- context [injectEndpoints api ?ims ?inj ?st] =>
    destruct (injectEndpoints_injected api ims inj st) as (r & new & Hrun & _)
  end.
  destruct (injected_frame _ _ _ _ _ _ _ Hrun) as (_ & He & Hh & _).
  unfold caches_agree. rewrite He, Hh. cbn. split.
  - intros r' b. by rewrite lookup_empty.
  - intros r' v. by rewrite lookup_empty.
Qed.

End Rehydration.

(** C6: [context.extractRehydrationInfo] memoizes the
    [extractRehydrationInfo] of the options. On an api in use (after any
    calls that returned or threw), called with an action object for which
    it holds no result, it calls the function of the options with the
    action and the [reducerPath] and returns what that returns
    ([undefined] without such an option); in every case its result is one
    that the function of the options returned for this action object, and
    it returns that result again for the same object after any further
    calls that returned or threw, whatever has become of the action's
    contents and of the world. [context.hasRehydrationInfo] returns whether
    that result is neither [null] nor [undefined], now and after any
    further calls; without an [extractRehydrationInfo] option the answer is
    [false]. *)
Theorem rehydrationInfo_memoized `{Host} (modules : list Module)
    (options : CreateApiOptions) (context api : ObjRef) (w : World)
    (before between : list ApiCall) (r : ObjRef) (fields fields' : JsObj) :
  let st0 := (createApi modules options context api w).2 in
  let st := after modules options api before st0 in
  let action := {| action_ref := r; action_fields := fields |} in
  let again := {| action_ref := r; action_fields := fields' |} in
  followed modules options api before st0 = true →
  ∃ result st1,
    extractRehydrationInfo options action st = (Returned result, st1)
    ∧ (extractCache st !! r = None →
       match CreateApiOptions.extractRehydrationInfo options with
       | Some f =>
           f action
             (nullish_coalesce (CreateApiOptions.reducerPath options)
                (JStr "api"))
             (world st) = (result, world st1)
       | None => result = JUndefined ∧ world st1 = world st
       end)
    ∧ (∀ v, extractCache st !! r = Some v → result = v ∧ st1 = st)
    ∧ returned_by_options options r result
    ∧ (let st2 := after modules options api between st1 in
       followed modules options api between st1 = true →
       extractRehydrationInfo options again st2 = (Returned result, st2)
       ∧ (hasRehydrationInfo options again st2).1
         = Returned (negb (nullish result)))
    ∧ (hasRehydrationInfo options action st).1 = Returned (negb (nullish result))
    ∧ (let st1' := (hasRehydrationInfo options action st).2 in
       let st2 := after modules options api between st1' in
       followed modules options api between st1' = true →
       extractRehydrationInfo options again st2 = (Returned result, st2))
    ∧ (CreateApiOptions.extractRehydrationInfo options = None →
       result = JUndefined
       ∧ (hasRehydrationInfo options action st).1 = Returned false).
Proof.
  intros st0 st action again _. subst st0.
  assert (caches_agree options st) as Hagree.
  { apply after_agree, createApi_agree. }
  destruct (hasRehydrationInfo_run options action st Hagree)
    as (result & st1 & st' & Hrun & Hhas & Hr' & Hagree' & Hgrow').
  destruct (extractRehydrationInfo_agree options action st Hagree)
    as [Hagree1 Hgrow1].
  destruct (extractRehydrationInfo_run options action st)
    as (v & st1' & Hrun' & Hcache & Hsame & Hwas & Hundef).
  rewrite Hrun in Hrun'. injection Hrun' as <- <-.
  rewrite Hrun in Hagree1, Hgrow1. cbn [snd] in Hagree1, Hgrow1.
  assert (extractCache st1 !! r = Some result) as Hr1.
  { rewrite Hcache. apply lookup_insert_eq. }
  assert (returned_by_options options r result) as Hreturned.
  { destruct Hagree1 as [_ Hall]. by eapply Hall. }
  exists result, st1. split_and!.
  - done.
  - intros Hmiss.
    destruct (extractRehydrationInfo_miss options action st Hmiss)
      as (v & w' & Hf & Hrun').
    rewrite Hrun in Hrun'. injection Hrun' as -> ->. cbn.
    destruct (CreateApiOptions.extractRehydrationInfo options); done.
  - intros v Hv.
    rewrite (extractRehydrationInfo_hit options action st v Hv) in Hrun.
    by injection Hrun as <- <-.
  - done.
  - intros st2 _.
    destruct (after_agree modules options api between st1 Hagree1)
      as [Hagree2 [Hgrow2 _]].
    assert (extractCache st2 !! r = Some result) as Hr2
      by (by eapply lookup_weaken).
    split; [by apply extractRehydrationInfo_hit|].
    destruct (hasRehydrationInfo_run options again st2 Hagree2)
      as (v2 & ? & ? & Hrun2 & -> & _).
    rewrite (extractRehydrationInfo_hit options again st2 result Hr2) in Hrun2.
    by injection Hrun2 as <- _.
  - by rewrite Hhas.
  - rewrite Hhas. cbn [snd]. cbv zeta. intros _.
    destruct (after_agree modules options api between st' Hagree')
      as [_ [Hgrow2 _]].
    apply extractRehydrationInfo_hit. cbn in Hr' |- *.
    eapply lookup_weaken; [exact Hr'|exact Hgrow2].
  - intros Hopt.
    assert (result = JUndefined) as ->.
    { unfold returned_by_options in Hreturned. by rewrite Hopt in Hreturned. }
    split; [done|]. by rewrite Hhas.
Qed.

Lemma rehydrationInfo_memoized_witness :
  let st := (createApi (H := Scenario.production) [Scenario.core]
               Scenario.rehydrating_options 1%positive 2%positive 0).2 in
  let action :=
    {| action_ref := 7%positive;
       action_fields := {[ "type" := JStr "persist/REHYDRATE" ]} |} in
  let later := after (H := Scenario.production) [Scenario.core]
                 Scenario.rehydrating_options 2%positive in
  (∃ result st1,
     extractRehydrationInfo Scenario.rehydrating_options action st
       = (Returned result, st1)
     ∧ result = JObj {[ "type" := JStr "persist/REHYDRATE" ]}
     ∧ world st1 = 1
     ∧ extractRehydrationInfo Scenario.rehydrating_options action
         (later [Scenario.tick] st1)
       = (Returned result, later [Scenario.tick] st1)
     ∧ (hasRehydrationInfo Scenario.rehydrating_options action st).1
       = Returned (negb (nullish result)))
  ∧ (hasRehydrationInfo (Scenario.posts_options Scenario.production) action
       Scenario.posts_api).1 = Returned false.
Proof.
  intros st action later. split.
  - destruct (rehydrationInfo_memoized (H := Scenario.production) [Scenario.core]
                Scenario.rehydrating_options 1%positive 2%positive 0
                [] [Scenario.tick] 7%positive
                {[ "type" := JStr "persist/REHYDRATE" ]}
                {[ "type" := JStr "persist/REHYDRATE" ]} eq_refl)
      as (result & st1 & Hrun & Hmiss & _ & _ & Hagain & Hhas & _).
    destruct (Hagain eq_refl) as [Hagain' _].
    exists result, st1. split; [exact Hrun|].
    assert ((JObj {[ "type" := JStr "persist/REHYDRATE" ]}, 1)
            = (result, world (H := Scenario.production) st1)) as Hf.
    { apply Hmiss. vm_compute. reflexivity. }
    injection Hf as <- <-.
    split; [reflexivity|]. split; [reflexivity|].
    split; [exact Hagain'|exact Hhas].
  - destruct (rehydrationInfo_memoized (H := Scenario.production)
                [Scenario.core; Scenario.react]
                (Scenario.posts_options Scenario.production) 1%positive 2%positive 0
                [] [] 7%positive
                {[ "type" := JStr "persist/REHYDRATE" ]}
                {[ "type" := JStr "persist/REHYDRATE" ]} eq_refl)
      as (result & st1 & _ & _ & _ & _ & _ & _ & _ & Hnone).
    apply Hnone. reflexivity.
Defined.

(** * Further properties of the factory *)

(** ** More on [injectEndpoints] (createApi.ts, lines 435 to 499) *)

Section InjectionMore.
Context `{Host}.

Lemma for_of_app {A} (l1 l2 : list A) (body : A → M ()) (st : ApiState) :
  for_of (l1 ++ l2) body st = (for_of l1 body ;; for_of l2 body) st.
Proof.
  revert st. induction l1 as [|x l1 IH]; intros st; [done|].
  cbn [app]. rewrite for_of_cons. unfold mbind at 1, M_bind at 1.
  rewrite for_of_cons.
  destruct (body x st) as [[[]|e|] st1]; [|done|done].
  rewrite IH. done.
Qed.

Lemma injectEndpoints_state api ims inject st :
  (injectEndpoints api ims inject st).2
  = (for_of (endpoints inject build) (inject_entry ims inject) st).2.
Proof.
  rewrite injectEndpoints_unfold.
  by destruct (for_of _ _ st) as [[[]|e|] st'].
Qed.

(** Where the assignment goes: to the prototype, for the name [__proto__]
    when neither [context.endpointDefinitions] nor its prototype has an
    own property of that name; to an own property otherwise. *)
Lemma assign_cases k d st :
  k = "__proto__" ∧ assign k d st = set_prototype (Some d) st
  ∨ assign k d st = set_endpointDefinitions <[k := d]> st
    ∧ (k ≠ "__proto__"
       ∨ is_Some (endpointDefinitions st !! k)
       ∨ ∃ p, prototype st = Some p ∧ is_Some (contents st p !! k)).
Proof.
  unfold assign.
  case_bool_decide as Hk; cbn [andb]; [|by right; split; [|left]].
  case_bool_decide as Hown; cbn [negb andb]; [by right; split; [|right; left]|].
  destruct (prototype st) as [p|]; [|by left].
  case_bool_decide as Hp; cbn [negb]; [|by left].
  right. split; [done|]. right. right. by exists p.
Qed.

Section LoopMore.
Variable ims : list InitializedModule.
Variable inject : Inject.

(** Registered names stay registered, and a name registered afterwards was
    registered before or is one of the entries. *)
Lemma injected_mono l st r st' new n :
  injected ims inject l st r st' new →
  is_Some (endpointDefinitions st !! n) →
  is_Some (endpointDefinitions st' !! n).
Proof.
  induction 1 as [st|n0 d l st ???|n0 d l st r st' new ??? _ IH|n0 d l st e ???
                 |n0 d l st r st' new ?? _ IH]; intros Hn; try done.
  - by apply IH.
  - apply IH. cbn. by apply lookup_assign_is_Some.
Qed.

Lemma injected_names l st r st' new n :
  injected ims inject l st r st' new →
  is_Some (endpointDefinitions st' !! n) →
  is_Some (endpointDefinitions st !! n) ∨ n ∈ l.*1.
Proof.
  intros Hrun Hn. destruct (decide (n ∈ l.*1)) as [|Hout]; [by right|left].
  destruct (injected_other _ _ _ _ _ _ _ n Hrun Hout) as [<- _]. done.
Qed.

(** After a loop that returns, [in] finds every name of the entries. *)
Lemma injected_known l st st' new n :
  injected ims inject l st (Returned ()) st' new →
  n ∈ l.*1 →
  in_endpointDefinitions n st' = true.
Proof.
  intros Hrun Hin.
  destruct (decide (n ∈ Object_prototype)) as [|Hplain].
  { by apply in_endpointDefinitions_inherited. }
  assert (n ≠ "__proto__") as Hproto.
  { intros ->. apply Hplain, proto_inherited. }
  revert Hin. remember (Returned ()) as r eqn:Hr.
  induction Hrun as [st|n0 d l st ???|n0 d l st r st' new Hov Hex ? Hrun IH
                 |n0 d l st e ???
                 |n0 d l st r st' new ?? Hrun IH]; intros Hin; try done.
  - by apply elem_of_nil in Hin.
  - rewrite fmap_cons in Hin. apply elem_of_cons in Hin as [->|Hin]; [|by apply IH].
    by eapply injected_in.
  - rewrite fmap_cons in Hin. apply elem_of_cons in Hin as [->|Hin]; [|by apply IH].
    apply in_endpointDefinitions_own. eapply injected_mono; [done|].
    cbn. rewrite lookup_assign_eq by done. by eexists.
Qed.

(** Entries whose names are all found, without [overrideExisting: true] or
    ['throw']: nothing is stored and no module is called. *)
Lemma injected_all_known l st r st' new :
  injected ims inject l st r st' new →
  exactly_true (overrideExisting inject) = false →
  is_string "throw" (overrideExisting inject) = false →
  (∀ n, n ∈ l.*1 → in_endpointDefinitions n st = true) →
  r = Returned ()
  ∧ endpointDefinitions st' = endpointDefinitions st
  ∧ (∀ i n, injectEndpoint_calls i n new = [])
  ∧ (development = false → st' = st).
Proof.
  intros Hrun Hov Hthrow.
  induction Hrun as [st|n0 d l st ???|n0 d l st r st' new ? Hex ? Hrun IH
                 |n0 d l st e Hfresh ??
                 |n0 d l st r st' new Hfresh ? Hrun IH]; intros Hall.
  - done.
  - congruence.
  - destruct IH as (-> & Hdefs & Hcalls & Hsame).
    { intros n Hn. rewrite in_set_log. apply Hall. rewrite fmap_cons. by right. }
    split_and!; [done|done| |].
    + intros i n.
      by rewrite injectEndpoint_calls_app, injectEndpoint_calls_complaint, Hcalls.
    + intros Hdev. rewrite (Hsame Hdev). unfold complaint. rewrite Hdev.
      apply set_log_nil.
  - destruct Hfresh as [?|Hfresh]; [congruence|].
    rewrite Hall in Hfresh; [done|]. rewrite fmap_cons. by left.
  - destruct Hfresh as [?|Hfresh]; [congruence|].
    rewrite Hall in Hfresh; [done|]. rewrite fmap_cons. by left.
Qed.

(** Without [overrideExisting: true], a name that every object inherits is
    never stored nor announced. *)
Lemma injected_inherited l st r st' new n :
  injected ims inject l st r st' new →
  exactly_true (overrideExisting inject) = false →
  n ∈ Object_prototype →
  endpointDefinitions st' !! n = endpointDefinitions st !! n
  ∧ ∀ i, injectEndpoint_calls i n new = [].
Proof.
  intros Hrun Hov Hn.
  induction Hrun as [st|n0 d l st ???|n0 d l st r st' new ??? _ IH|n0 d l st e ???
                 |n0 d l st r st' new Hfresh ? _ IH]; try done.
  - destruct IH as [IH1 IH2]. split; [done|]. intros i.
    by rewrite injectEndpoint_calls_app, injectEndpoint_calls_complaint, IH2.
  - destruct Hfresh as [?|Hfresh]; [congruence|].
    assert (n0 ≠ n) as Hne.
    { intros ->. by rewrite in_endpointDefinitions_inherited in Hfresh. }
    destruct IH as [IH1 IH2]. split.
    + rewrite IH1. cbn. by apply lookup_assign_ne.
    + intros i. rewrite injectEndpoint_calls_app, IH2.
      by rewrite injectEndpoint_calls_announce_ne.
Qed.

(** The name [__proto__] does not become an own property as long as no
    definition in play has an own property of that name. *)
Lemma injected_proto l st r st' new :
  injected ims inject l st r st' new →
  endpointDefinitions st !! "__proto__" = None →
  (∀ d, prototype st = Some d → contents st d !! "__proto__" = None) →
  (∀ d, d ∈ l.*2 → contents st d !! "__proto__" = None) →
  endpointDefinitions st' !! "__proto__" = None.
Proof.
  induction 1 as [st|n0 d0 l st ???|n0 d0 l st r st' new ??? _ IH|n0 d0 l st e ???
                 |n0 d0 l st r st' new ?? _ IH]; intros Hown Hproto Hl; try done.
  - apply IH; [done|done|]. intros d Hd. apply Hl. rewrite fmap_cons. by right.
  - assert (contents st d0 !! "__proto__" = None) as Hd0.
    { apply Hl. rewrite fmap_cons. by left. }
    assert (∀ d, d ∈ l.*2 →
              contents (set_log (λ lg, lg ++ announce ims n0 d0) (assign n0 d0 st)) d
              !! "__proto__" = None) as Hrest.
    { intros d Hd. unfold contents. cbn.
      destruct (assign_frame n0 d0 st) as (_ & -> & _).
      apply Hl. rewrite fmap_cons. by right. }
    destruct (assign_cases n0 d0 st) as [[-> Hassign]|[Hassign Hwhy]].
    + apply IH; [by rewrite Hassign| |done].
      rewrite Hassign. cbn. by intros d [= <-].
    + assert (n0 ≠ "__proto__") as Hne.
      { intros ->. destruct Hwhy as [?|[[? Hsome]|(p & Hp & [? Hsome])]];
          [done|congruence|].
        rewrite (Hproto p Hp) in Hsome. done. }
      apply IH; [|by rewrite Hassign|done].
      rewrite Hassign. cbn. by rewrite lookup_insert_ne.
Qed.

(** Outside development mode nothing is written to the console. *)
Lemma injected_quiet l st r st' new message :
  injected ims inject l st r st' new →
  development = false →
  ConsoleError message ∉ new.
Proof.
  intros Hrun Hdev.
  induction Hrun as [st|n0 d l st ???|n0 d l st r st' new ??? _ IH|n0 d l st e ???
                 |n0 d l st r st' new ?? _ IH]; try apply not_elem_of_nil.
  - unfold complaint. by rewrite Hdev.
  - rewrite not_elem_of_app. split; [|done].
    unfold announce. rewrite list_elem_of_fmap. by intros (m & ? & _).
Qed.

End LoopMore.
End InjectionMore.

(** X1: injecting an object whose entries are those of one callback
    followed by those of another is the same as two calls of
    [injectEndpoints], one after the other, with the same
    [overrideExisting]: same result, same variables, same calls of the
    modules. *)
Theorem injectEndpoints_split `{Host} (api : ObjRef)
    (ims : list InitializedModule)
    (e1 e2 : EndpointBuilder → JsRecord EndpointDefinition) (ov : JsVal)
    (st : ApiState) :
  injectEndpoints api ims
    {| endpoints := λ b, e1 b ++ e2 b; overrideExisting := ov |} st
  = (injectEndpoints api ims {| endpoints := e1; overrideExisting := ov |} ;;
     injectEndpoints api ims {| endpoints := e2; overrideExisting := ov |}) st.
Proof.
  unfold mbind at 1, M_bind at 1. rewrite !injectEndpoints_unfold.
  cbn [endpoints]. rewrite for_of_app. unfold mbind, M_bind.
  change (inject_entry ims {| endpoints := λ b, e1 b ++ e2 b; overrideExisting := ov |})
    with (inject_entry ims {| endpoints := e1; overrideExisting := ov |}).
  destruct (for_of (e1 build) _ st) as [[[]|e|] st1]; [|done|done].
  rewrite injectEndpoints_unfold. cbn [endpoints].
  change (inject_entry ims {| endpoints := e1; overrideExisting := ov |})
    with (inject_entry ims {| endpoints := e2; overrideExisting := ov |}).
  reflexivity.
Qed.

(** X2: outside development mode, and unless [overrideExisting] is
    ['throw'], [injectEndpoints] never throws: it returns the api, and it
    writes nothing to the console. *)
Theorem injectEndpoints_production_returns `{Host} (api : ObjRef)
    (ims : list InitializedModule) (inject : Inject) (st : ApiState) :
  let run := injectEndpoints api ims inject st in
  development = false →
  overrideExisting inject ≠ JStr "throw" →
  run.1 = Returned api
  ∧ ∃ new, log run.2 = log st ++ new ∧ ∀ message, ConsoleError message ∉ new.
Proof.
  intros run Hdev Hov. subst run.
  destruct (injectEndpoints_injected api ims inject st) as (r & new & Hrun & ->).
  split.
  - destruct r as [[]|e|]; [done| |].
    + destruct (injected_thrown _ _ _ _ _ _ _ Hrun) as [[Hthrow _]|[Hdev' _]].
      * by apply is_string_true in Hthrow.
      * congruence.
    + by destruct (injected_not_beyond _ _ _ _ _ _ _ Hrun).
  - exists new. split; [by eapply injected_log|].
    intros message. by eapply injected_quiet.
Qed.

Lemma injectEndpoints_production_returns_witness :
  let run :=
    injectEndpoints (H := Scenario.production) 2%positive
      (initialized [Scenario.core; Scenario.react])
      (Scenario.more_endpoints (JBool false)) Scenario.posts_api in
  development (Host := Scenario.production) = false
  ∧ overrideExisting (Scenario.more_endpoints (JBool false)) ≠ JStr "throw"
  ∧ run.1 = Returned 2%positive.
Proof.
  intros run. split; [reflexivity|]. split; [discriminate|].
  apply (injectEndpoints_production_returns (H := Scenario.production) 2%positive
           (initialized [Scenario.core; Scenario.react])
           (Scenario.more_endpoints (JBool false)) Scenario.posts_api);
    [reflexivity|discriminate].
Defined.

(** X3: whatever it is given and whether it returns or throws,
    [injectEndpoints] leaves the tag types and the two caches as they are,
    writes to no definition, only adds to the log, calls no [init],
    unregisters no endpoint, and registers no name besides those of the
    entries. *)
Theorem injectEndpoints_frame `{Host} (api : ObjRef)
    (ims : list InitializedModule) (inject : Inject) (st : ApiState) :
  let run := injectEndpoints api ims inject st in
  tagTypes run.2 = tagTypes st
  ∧ extractCache run.2 = extractCache st
  ∧ hasCache run.2 = hasCache st
  ∧ objects run.2 = objects st
  ∧ (∃ new, log run.2 = log st ++ new ∧ init_calls new = [])
  ∧ (∀ n, is_Some (endpointDefinitions st !! n) →
          is_Some (endpointDefinitions run.2 !! n))
  ∧ (∀ n, is_Some (endpointDefinitions run.2 !! n) →
          is_Some (endpointDefinitions st !! n)
          ∨ n ∈ (endpoints inject build).*1).
Proof.
  intros run. subst run.
  destruct (injectEndpoints_injected api ims inject st) as (r & new & Hrun & _).
  destruct (injected_frame _ _ _ _ _ _ _ Hrun) as (Ht & He & Hh & _ & Ho).
  split_and!; try done.
  - exists new. split; [by eapply injected_log|by eapply injected_no_init].
  - intros n. by eapply injected_mono.
  - intros n. by eapply injected_names.
Qed.

(** X4: injecting again what a call that returned has injected, this time
    without [overrideExisting: true] or ['throw'], returns the api,
    leaves every definition as it is and calls no module; outside
    development mode it changes nothing at all. *)
Theorem injectEndpoints_again `{Host} (api : ObjRef)
    (ims : list InitializedModule) (inject : Inject) (ov : JsVal)
    (st : ApiState) :
  let run := injectEndpoints api ims inject st in
  let again :=
    injectEndpoints api ims
      {| endpoints := endpoints inject; overrideExisting := ov |} run.2 in
  run.1 = Returned api →
  ov ≠ JBool true →
  ov ≠ JStr "throw" →
  again.1 = Returned api
  ∧ endpointDefinitions again.2 = endpointDefinitions run.2
  ∧ prototype again.2 = prototype run.2
  ∧ objects again.2 = objects run.2
  ∧ (∃ new, log again.2 = log run.2 ++ new
       ∧ ∀ i n, injectEndpoint_calls i n new = [])
  ∧ (development = false → again.2 = run.2).
Proof.
  intros run again Hret Hov Hthrow. subst run again.
  destruct (injectEndpoints_injected api ims inject st) as (r & new & Hrun & Hr).
  rewrite Hr in Hret. destruct r as [[]|e|]; [clear Hret|discriminate..].
  match goal with |- context [injectEndpoints api ims ?inj ?st1] =>
    destruct (injectEndpoints_injected api ims inj st1)
      as (r2 & new2 & Hrun2 & Hr2);
    destruct (injected_all_known _ _ _ _ _ _ _ Hrun2)
      as (-> & Hdefs & Hcalls & Hsame)
  end.
  - cbn. by apply exactly_true_false.
  - cbn. destruct (is_string "throw" ov) eqn:E; [|done].
    by apply is_string_true in E.
  - intros n Hn. cbn in Hn. by eapply injected_known.
  - rewrite Hr2. split_and!; try done.
    + eapply injected_prototype; [done|]. cbn. by apply exactly_true_false.
    + by destruct (injected_frame _ _ _ _ _ _ _ Hrun2) as (_ & _ & _ & _ & ?).
    + exists new2. split; [by eapply injected_log|done].
Qed.

Lemma injectEndpoints_again_witness :
  let run :=
    injectEndpoints (H := Scenario.production) 2%positive
      (initialized [Scenario.core; Scenario.react])
      (Scenario.more_endpoints (JBool true)) Scenario.posts_api in
  let again :=
    injectEndpoints (H := Scenario.production) 2%positive
      (initialized [Scenario.core; Scenario.react])
      (Scenario.more_endpoints JUndefined) run.2 in
  run.1 = Returned 2%positive
  ∧ again.1 = Returned 2%positive
  ∧ again.2 = run.2.
Proof.
  intros run again.
  assert (run.1 = Returned 2%positive) as Hret by (vm_compute; reflexivity).
  split; [exact Hret|].
  destruct (injectEndpoints_again (H := Scenario.production) 2%positive
              (initialized [Scenario.core; Scenario.react])
              (Scenario.more_endpoints (JBool true)) JUndefined
              Scenario.posts_api Hret) as (Hagain & _ & _ & _ & _ & Hsame);
    [discriminate|discriminate|].
  split; [exact Hagain|exact (Hsame eq_refl)].
Defined.

Section FreshEntries.
Context `{Host}.

(** Outside development mode, entries with new names are all stored and
    announced, in their order. *)
Lemma for_of_fresh ims inject (l : list (string * EndpointDefinition))
    (st : ApiState) :
  development = false →
  NoDup l.*1 →
  (∀ n, n ∈ l.*1 → in_endpointDefinitions n st = false) →
  for_of l (inject_entry ims inject) st
  = (Returned (),
     set_log (λ lg, lg ++ flat_map (λ e, announce ims e.1 e.2) l)
       (set_endpointDefinitions (λ m, list_to_map l ∪ m) st)).
Proof.
  intros Hdev. revert st. induction l as [|[n d] l IH]; intros st Hnd Hfresh.
  - destruct st. unfold set_log, set_endpointDefinitions; cbn.
    by rewrite app_nil_r, (left_id_L ∅ (∪)).
  - rewrite fmap_cons in Hnd. apply NoDup_cons in Hnd as [Hn Hnd].
    assert (in_endpointDefinitions n st = false) as Hnew.
    { apply Hfresh. rewrite fmap_cons. by left. }
    destruct (in_endpointDefinitions_false n st Hnew) as (Hnone & Hplain & Hproto).
    rewrite for_of_cons, inject_entry_unfold.
    rewrite Hnew, andb_false_r, Hdev.
    rewrite IH; [|done|].
    + rewrite assign_own by done.
      unfold set_log, set_endpointDefinitions; cbn.
      rewrite <- insert_union_l, <- insert_union_r, (assoc_L (++)); [done|].
      by apply not_elem_of_list_to_map_1.
    + intros n' Hn'. rewrite in_set_log.
      rewrite in_assign_other; [|done|by intros ->].
      apply Hfresh. rewrite fmap_cons. by right.
Qed.

End FreshEntries.

(** X5: outside development mode, when the names of the endpoints of the
    options are not names that every object inherits, [createApi] returns
    the api with exactly these endpoints registered, a copy of the tag
    types of the options, empty caches, and a log made of the [init] of
    every module in order, then, for every endpoint in order, the
    [injectEndpoint] of every module in order. The prototype of
    [context.endpointDefinitions] is [Object.prototype], and no definition
    has been written to. *)
Theorem createApi_production `{Host} (modules : list Module)
    (options : CreateApiOptions) (context api : ObjRef) (w : World) :
  let entries := CreateApiOptions.endpoints options build in
  development = false →
  NoDup entries.*1 →
  (∀ n, n ∈ entries.*1 → n ∉ Object_prototype) →
  buildCreateApi modules options context api w
  = (Returned api,
     {| tagTypes := default [] (CreateApiOptions.tagTypes options);
        endpointDefinitions := list_to_map entries;
        prototype := None;
        objects := ∅;
        extractCache := ∅;
        hasCache := ∅;
        log :=
          imap (λ i m, ModuleInit i m api (optionsWithDefaults options) context)
            modules
          ++ flat_map (λ e, announce (initialized modules) e.1 e.2) entries;
        world := w |}).
Proof.
  intros entries Hdev Hnd Hplain. subst entries.
  unfold buildCreateApi. rewrite createApi_unfold, injectEndpoints_unfold.
  cbn [endpoints]. rewrite for_of_fresh; [|done|done|].
  - unfold set_log, set_endpointDefinitions, initial_state; cbn.
    by rewrite (right_id_L ∅ (∪)).
  - intros n Hn. rewrite in_endpointDefinitions_plain by done.
    apply has_property_false. split; [apply lookup_empty|].
    by apply Hplain.
Qed.

Lemma createApi_production_witness :
  let entries := endpoints (Scenario.more_endpoints JUndefined) build in
  let run :=
    buildCreateApi (H := Scenario.production) [Scenario.core; Scenario.react]
      (Scenario.options (endpoints (Scenario.more_endpoints JUndefined)))
      1%positive 2%positive 0 in
  NoDup entries.*1
  ∧ run.1 = Returned 2%positive
  ∧ endpointDefinitions run.2 = list_to_map entries
  ∧ injectEndpoint_calls 1 "addPost" (log run.2)
    = [Object_at 21%positive (mutation build Scenario.addPost)].
Proof.
  intros entries run.
  assert (NoDup entries.*1) as Hnd.
  { cbn. apply NoDup_cons. split; [|apply NoDup_singleton].
    rewrite list_elem_of_singleton. discriminate. }
  split; [exact Hnd|].
  assert (∀ n, n ∈ entries.*1 → n ∉ Object_prototype) as Hplain.
  { intros n Hn. cbn in Hn.
    apply elem_of_cons in Hn as [->|Hn];
      [|apply list_elem_of_singleton in Hn as ->];
      apply (bool_decide_unpack (_ ∉ Object_prototype)); vm_compute; exact I. }
  subst run.
  rewrite (createApi_production (H := Scenario.production)
             [Scenario.core; Scenario.react]
             (Scenario.options (endpoints (Scenario.more_endpoints JUndefined)))
             1%positive 2%positive 0 eq_refl Hnd Hplain).
  split; [reflexivity|]. split; reflexivity.
Defined.

(** X6: [injectEndpoints] is not undone by a throw: when the entries are
    [l1] followed by [l2] and injecting [l1] alone returns, every entry of
    [l1] whose name [in] did not find in [context.endpointDefinitions]
    (or any but [__proto__], with [overrideExisting: true]) is stored and
    announced once to every module, whether or not the call goes on to
    throw at an entry of [l2]. *)
Theorem injectEndpoints_keeps_earlier `{Host} (modules : list Module)
    (api : ObjRef) (inject : Inject) (l1 l2 : JsRecord EndpointDefinition)
    (st : ApiState) :
  let run := injectEndpoints api (initialized modules) inject st in
  let first :=
    injectEndpoints api (initialized modules)
      {| endpoints := λ _, l1; overrideExisting := overrideExisting inject |} st in
  endpoints inject build = l1 ++ l2 →
  NoDup (l1 ++ l2).*1 →
  first.1 = Returned api →
  ∃ new, log run.2 = log st ++ new ∧
    ∀ n d, (n, d) ∈ l1 →
      in_endpointDefinitions n st = false
      ∨ overrideExisting inject = JBool true ∧ n ≠ "__proto__" →
      endpointDefinitions run.2 !! n = Some d
      ∧ ∀ i m, modules !! i = Some m → injectEndpoint_calls i n new = [d].
Proof.
  intros run first Hl Hnd Hret. subst run first.
  rewrite fmap_app in Hnd. apply NoDup_app in Hnd as (Hnd1 & Hdisj & Hnd2).
  rewrite injectEndpoints_unfold in Hret. cbn [endpoints] in Hret.
  change (inject_entry (initialized modules)
            {| endpoints := λ _, l1; overrideExisting := overrideExisting inject |})
    with (inject_entry (initialized modules) inject) in Hret.
  destruct (for_of_injected (initialized modules) inject l1 st) as [new1 Hrun1].
  destruct (for_of l1 (inject_entry (initialized modules) inject) st)
    as [[[]|e|] st1] eqn:E1; [clear Hret|discriminate..].
  cbn [fst snd] in Hrun1.
  destruct (for_of_injected (initialized modules) inject l2 st1) as [new2 Hrun2].
  assert ((injectEndpoints api (initialized modules) inject st).2
          = (for_of l2 (inject_entry (initialized modules) inject) st1).2) as ->.
  { rewrite injectEndpoints_state, Hl, for_of_app.
    unfold mbind, M_bind. by rewrite E1. }
  exists (new1 ++ new2). split.
  { rewrite (injected_log _ _ _ _ _ _ _ Hrun2), (injected_log _ _ _ _ _ _ _ Hrun1).
    by rewrite (assoc_L (++)). }
  intros n d Hin Hfresh.
  destruct (injected_stored _ _ _ _ _ _ n d Hrun1 Hnd1 Hin) as [Hst Hcalls].
  { destruct Hfresh as [Hfresh|[Hov Hproto]].
    - by right.
    - left. by rewrite Hov. }
  destruct (injected_other _ _ _ _ _ _ _ n Hrun2) as [Hsame Hnone].
  { apply Hdisj. apply list_elem_of_fmap. by exists (n, d). }
  split; [by rewrite Hsame|].
  intros i m Hi.
  rewrite injectEndpoint_calls_app, Hnone, app_nil_r, Hcalls.
  by eapply initialized_calls.
Qed.

Lemma injectEndpoints_keeps_earlier_witness :
  let addPost := Object_at 21%positive (mutation build Scenario.addPost) in
  let getPosts := Object_at 23%positive (query build Scenario.getPosts) in
  let inject : Inject :=
    {| endpoints := λ b, [("addPost", addPost); ("getPosts", getPosts)];
       overrideExisting := JStr "throw" |} in
  let run :=
    injectEndpoints (H := Scenario.production) 2%positive
      (initialized [Scenario.core; Scenario.react]) inject Scenario.posts_api in
  (∃ e, run.1 = Thrown e)
  ∧ endpointDefinitions run.2 !! "addPost" = Some addPost.
Proof.
  intros addPost getPosts inject run. split; [eexists; vm_compute; reflexivity|].
  destruct (injectEndpoints_keeps_earlier (H := Scenario.production)
              [Scenario.core; Scenario.react] 2%positive inject
              [("addPost", addPost)] [("getPosts", getPosts)]
              Scenario.posts_api) as (new & _ & Hall).
  - reflexivity.
  - cbn. apply NoDup_cons. split; [|apply NoDup_singleton].
    rewrite list_elem_of_singleton. discriminate.
  - vm_compute. reflexivity.
  - apply (Hall "addPost" addPost).
    + apply list_elem_of_singleton. reflexivity.
    + left. vm_compute. reflexivity.
Defined.

(** X7: an endpoint named like a property that every object inherits
    ([constructor], [toString], ...) is found by [in] in every state:
    without [overrideExisting: true] it is never stored and no module is
    told of it, and with ['throw'] the call throws. The name [__proto__]
    does not become an own property of [context.endpointDefinitions],
    unless a definition with an own property named [__proto__] is in play:
    the assignment then finds that property before the setter of
    [Object.prototype]. *)
Theorem injectEndpoints_inherited_name `{Host} (api : ObjRef)
    (ims : list InitializedModule) (inject : Inject) (st : ApiState)
    (n : string) :
  let run := injectEndpoints api ims inject st in
  n ∈ Object_prototype →
  in_endpointDefinitions n st = true
  ∧ (overrideExisting inject ≠ JBool true →
     endpointDefinitions run.2 !! n = endpointDefinitions st !! n
     ∧ ∃ new, log run.2 = log st ++ new
         ∧ ∀ i, injectEndpoint_calls i n new = [])
  ∧ (overrideExisting inject = JStr "throw" →
     n ∈ (endpoints inject build).*1 →
     ∃ e, run.1 = Thrown e)
  ∧ (endpointDefinitions st !! "__proto__" = None →
     (∀ d, prototype st = Some d ∨ d ∈ (endpoints inject build).*2 →
           contents st d !! "__proto__" = None) →
     endpointDefinitions run.2 !! "__proto__" = None).
Proof.
  intros run Hn. subst run.
  destruct (injectEndpoints_injected api ims inject st) as (r & new & Hrun & Hr).
  split_and!.
  - by apply in_endpointDefinitions_inherited.
  - intros Hov. apply exactly_true_false in Hov.
    destruct (injected_inherited _ _ _ _ _ _ _ n Hrun Hov Hn) as [Hsame Hcalls].
    split; [done|]. exists new. split; [by eapply injected_log|done].
  - intros Hov Hin. apply is_string_true in Hov.
    destruct (injected_throw _ _ _ _ _ _ _ n Hrun Hov Hin) as [e ->].
    { by apply in_endpointDefinitions_inherited. }
    rewrite Hr. by exists e.
  - intros Hown Hplain. eapply injected_proto; [done|done| |]; eauto.
Qed.

Lemma injectEndpoints_inherited_name_witness :
  let inject : Inject :=
    {| endpoints := λ b,
         [("toString", Object_at 24%positive (query b Scenario.getPosts))];
       overrideExisting := JUndefined |} in
  let run :=
    injectEndpoints (H := Scenario.production) 2%positive
      (initialized [Scenario.core; Scenario.react]) inject Scenario.posts_api in
  "toString" ∈ Object_prototype
  ∧ endpointDefinitions run.2 !! "toString" = None.
Proof.
  intros inject run.
  assert ("toString" ∈ Object_prototype) as Hin
    by (apply (bool_decide_unpack (_ ∈ Object_prototype)); vm_compute; exact I).
  split; [exact Hin|].
  destruct (injectEndpoints_inherited_name (H := Scenario.production) 2%positive
              (initialized [Scenario.core; Scenario.react]) inject
              Scenario.posts_api "toString" Hin) as (_ & Hkeep & _ & _).
  destruct Hkeep as [Hsame _]; [discriminate|].
  subst run. rewrite Hsame. vm_compute. reflexivity.
Defined.

(** How [__proto__] can become an own property: the first call makes a
    definition with an own [__proto__] property the prototype; the second
    assignment to [__proto__] finds that data property before the setter
    of [Object.prototype], and makes an own property. *)
Example own_proto_property :
  let definition :=
    Object_at 26%positive (query build {[ "__proto__" := JNum 1 ]}) in
  let inject : Inject :=
    {| endpoints := λ b, [("__proto__", definition)];
       overrideExisting := JBool true |} in
  let first :=
    injectEndpoints (H := Scenario.production) 2%positive
      (initialized [Scenario.core]) inject Scenario.posts_api in
  let second :=
    injectEndpoints (H := Scenario.production) 2%positive
      (initialized [Scenario.core]) inject first.2 in
  endpointDefinitions first.2 !! "__proto__" = None
  ∧ prototype first.2 = Some definition
  ∧ endpointDefinitions second.2 !! "__proto__" = Some definition.
Proof. vm_compute. done. Qed.

(** ** More on [enhanceEndpoints] (createApi.ts, lines 405 to 428) *)

Section EnhanceMore.
Context `{Host}.

Lemma contents_set_objects (st : ApiState) (objs : gmap ObjRef JsObj)
    (d : EndpointDefinition) :
  objs !! definition_ref d = objects st !! definition_ref d →
  contents (set_objects (λ _, objs) st) d = contents st d.
Proof. intros Hd. unfold contents. cbn. by rewrite Hd. Qed.

Lemma contents_written (st : ApiState) (d : EndpointDefinition) (fields : JsObj) :
  contents
    (set_objects (λ _, <[definition_ref d := fields]> (objects st)) st) d
  = fields.
Proof. unfold contents. cbn. by rewrite lookup_insert_eq. Qed.

Lemma enhance_entry_unfold n pd st :
  enhance_entry (n, pd) st
  = match pd, read n st with
    | UpdateFunction f, FoundDefinition d =>
        match call_enhancer f (JObj (contents st d)) with
        | Returned fields => write d fields st
        | Thrown e => (Thrown e, st)
        | Beyond => (Beyond, st)
        end
    | UpdateFunction f, FoundValue v =>
        if is_object v then (Beyond, st)
        else match call_enhancer f v with
             | Returned _ => (Returned (), st)
             | Thrown e => (Thrown e, st)
             | Beyond => (Beyond, st)
             end
    | PartialObject p, FoundDefinition d => Object_assign d p st
    | PartialObject p, FoundValue v =>
        if truthy v then (Beyond, st) else (Returned (), st)
    | _, FoundBuiltin => (Beyond, st)
    end.
Proof.
  unfold enhance_entry. unfold mbind at 1, M_bind at 1. cbn [get_state].
  destruct pd as [f|p]; destruct (read n st) as [d| |v]; try reflexivity.
  - destruct (is_object v); [reflexivity|].
    unfold mbind, M_bind, lift. by destruct (call_enhancer f v).
  - by destruct (truthy v).
Qed.

(** One turn of the loop for a registered name, when it returns. *)
Lemma enhance_entry_registered n pd d st :
  endpointDefinitions st !! n = Some d →
  (enhance_entry (n, pd) st).1 = Returned () →
  ∃ fields,
    enhance_entry (n, pd) st
    = (Returned (),
       set_objects (λ _, <[definition_ref d := fields]> (objects st)) st)
    ∧ match pd with
      | UpdateFunction f =>
          call_enhancer f (JObj (contents st d)) = Returned fields
      | PartialObject p =>
          (∀ k, k ≠ "__proto__" →
             fields !! k
             = match p !! k with
               | Some v => Some v
               | None => contents st d !! k
               end)
          ∧ fields !! "__proto__"
            = match contents st d !! "__proto__" with
              | Some old => Some (default old (p !! "__proto__"))
              | None => None
              end
      end.
Proof.
  intros Hd. rewrite enhance_entry_unfold, (read_registered n st d Hd).
  destruct pd as [f|p].
  - destruct (call_enhancer f (JObj (contents st d))) as [fields|e|];
      [|done|done].
    intros _. by exists fields.
  - destruct (Object_assign_run d p st) as [(-> & _)|(fields & -> & Hk & Hp)];
      [done|].
    intros _. by exists fields.
Qed.

(** The loop, seen from one of its entries: a registered name whose
    definition no other entry reaches. *)
Lemma enhance_loop_at (l : JsRecord PartialDefinition) (st : ApiState)
    (n : string) (pd : PartialDefinition) (d : EndpointDefinition) :
  NoDup l.*1 →
  (n, pd) ∈ l →
  endpointDefinitions st !! n = Some d →
  (∀ n' d', n' ∈ l.*1 → n' ≠ n → endpointDefinitions st !! n' = Some d' →
            definition_ref d' ≠ definition_ref d) →
  ("__proto__" ∈ l.*1 → n ≠ "__proto__" →
   ∀ p, prototype st = Some p → definition_ref p ≠ definition_ref d) →
  (for_of l enhance_entry st).1 = Returned () →
  match pd with
  | UpdateFunction f =>
      call_enhancer f (JObj (contents st d))
      = Returned (contents (for_of l enhance_entry st).2 d)
  | PartialObject p =>
      (∀ k, k ≠ "__proto__" →
         contents (for_of l enhance_entry st).2 d !! k
         = match p !! k with
           | Some v => Some v
           | None => contents st d !! k
           end)
      ∧ contents (for_of l enhance_entry st).2 d !! "__proto__"
        = match contents st d !! "__proto__" with
          | Some old => Some (default old (p !! "__proto__"))
          | None => None
          end
  end.
Proof.
  revert st. induction l as [|[n0 pd0] l IH]; intros st Hnd Hin Hd Hown Hproto.
  { by apply elem_of_nil in Hin. }
  rewrite fmap_cons in Hnd. apply NoDup_cons in Hnd as [Hn0 Hnd].
  rewrite for_of_cons.
  apply elem_of_cons in Hin as [Heq|Hin].
  - inversion Heq; subst n0 pd0. clear Heq.
    destruct (enhance_entry (n, pd) st) as [[[]|e|] s1] eqn:Hturn; [|done..].
    destruct (enhance_entry_registered n pd d st Hd) as (fields & Hrun & Hpd).
    { by rewrite Hturn. }
    rewrite Hturn in Hrun. injection Hrun as ->.
    destruct (enhance_loop_run l
                (set_objects (λ _, <[definition_ref d := fields]> (objects st)) st))
      as (r & objs & -> & Hother & _).
    intros _. cbn [snd].
    assert (contents
              (set_objects (λ _, objs)
                 (set_objects (λ _, <[definition_ref d := fields]> (objects st)) st))
              d = fields) as ->; [|done].
    rewrite contents_set_objects; [apply contents_written|].
    apply Hother.
    + intros n' d' Hn' Hd'. cbn in Hd'. apply (Hown n' d'); [|by intros ->|done].
      rewrite fmap_cons. by right.
    + intros Hp p Hpro. cbn in Hpro. apply Hproto; [| |done].
      * rewrite fmap_cons. by right.
      * by intros ->.
  - assert (n0 ≠ n) as Hne.
    { intros ->. apply Hn0. apply list_elem_of_fmap. by exists (n, pd). }
    destruct (enhance_entry_run n0 pd0 st) as (r1 & objs1 & -> & Hother1 & _).
    assert (objs1 !! definition_ref d = objects st !! definition_ref d) as Hsame.
    { apply Hother1. intros d' Hread.
      apply read_definition in Hread as [Hd'|[-> Hd']].
      - apply (Hown n0 d'); [|done|done]. rewrite fmap_cons. by left.
      - apply Hproto; [|congruence|done]. rewrite fmap_cons. by left. }
    destruct r1 as [[]|e|]; [|done..].
    intros Hret.
    specialize (IH (set_objects (λ _, objs1) st) Hnd Hin Hd).
    rewrite (contents_set_objects st objs1 d Hsame) in IH.
    apply IH; [| |done].
    + intros n' d' Hn'. cbn. apply Hown. rewrite fmap_cons. by right.
    + intros Hp. cbn. apply Hproto. rewrite fmap_cons. by right.
Qed.

Lemma enhanceEndpoints_unfold (api : ObjRef) (addTagTypes : option (list string))
    (l : JsRecord PartialDefinition) (st : ApiState) :
  enhanceEndpoints api addTagTypes (Some l) st
  = match for_of l enhance_entry
            (set_tagTypes
               (λ t, t ++ appended_tags (tagTypes st) (default [] addTagTypes))
               st) with
    | (Returned _, st') => (Returned api, st')
    | (Thrown e, st') => (Thrown e, st')
    | (Beyond, st') => (Beyond, st')
    end.
Proof.
  unfold enhanceEndpoints.
  erewrite bind_returned; [|apply tags_loop].
  unfold Object_entries, mbind, M_bind.
  by destruct (for_of l enhance_entry _) as [[[]|e|] st'].
Qed.

End EnhanceMore.

(** A definition registered under two names is one object: what
    [enhanceEndpoints] merges into it under one name is seen under the
    other. *)
Example shared_definition_is_enhanced :
  let shared := Object_at 27%positive (query build Scenario.getPosts) in
  let st :=
    (injectEndpoints (H := Scenario.production) 2%positive
       (initialized [Scenario.core])
       {| endpoints := λ b, [("a", shared); ("b", shared)];
          overrideExisting := JUndefined |} Scenario.posts_api).2 in
  let run :=
    enhanceEndpoints (H := Scenario.production) 2%positive None
      (Some [("a", PartialObject {[ "keepUnusedDataFor" := JNum 5 ]})]) st in
  endpointDefinitions run.2 !! "b" = Some shared
  ∧ contents st shared !! "keepUnusedDataFor" = None
  ∧ contents run.2 shared !! "keepUnusedDataFor" = Some (JNum 5).
Proof. vm_compute. done. Qed.

(** A partial definition given under the name [__proto__] is merged into
    the prototype of [context.endpointDefinitions]: the run leaves what
    this development follows when that is [Object.prototype], and writes to
    the definition when the prototype has been replaced by one. *)
Example enhance_prototype :
  let definition := Object_at 24%positive (query build Scenario.getPosts) in
  let partial := [("__proto__", PartialObject {[ "x" := JNum 1 ]})] in
  let replaced :=
    (injectEndpoints (H := Scenario.production) 2%positive
       (initialized [Scenario.core])
       {| endpoints := λ b, [("__proto__", definition)];
          overrideExisting := JBool true |} Scenario.posts_api).2 in
  (enhanceEndpoints (H := Scenario.production) 2%positive None (Some partial)
     Scenario.posts_api).1 = Beyond
  ∧ in_endpointDefinitions "x" replaced = false
  ∧ in_endpointDefinitions "x"
      (enhanceEndpoints (H := Scenario.production) 2%positive None
         (Some partial) replaced).2 = true.
Proof. vm_compute. done. Qed.

(** A partial definition given under a name that
    [context.endpointDefinitions] inherits from its replaced prototype meets
    the value of that property: a falsy value gives way to a new object
    ([|| {}]) and the call returns; a truthy one is what [Object.assign] is
    given. *)
Example merge_into_inherited_value :
  let definition :=
    Object_at 28%positive
      (query build
         {[ "zero" := JNum 0; "nan" := JNum nan; "empty" := JStr EmptyString;
            "off" := JBool false; "none" := JNull;
            "one" := JNum 1; "name" := JStr "a"; "on" := JBool true ]}) in
  let replaced :=
    (injectEndpoints (H := Scenario.production) 2%positive
       (initialized [Scenario.core])
       {| endpoints := λ b, [("__proto__", definition)];
          overrideExisting := JBool true |} Scenario.posts_api).2 in
  let merge n :=
    (enhanceEndpoints (H := Scenario.production) 2%positive None
       (Some [(n, PartialObject {[ "x" := JNum 1 ]})]) replaced).1 in
  map merge ["zero"; "nan"; "empty"; "off"; "none"; "missing"]
  = replicate 6 (Returned 2%positive)
  ∧ map merge ["one"; "name"; "on"; "toString"] = replicate 4 Beyond.
Proof. vm_compute. done. Qed.

(** [Object.assign] gives the property [__proto__] of a partial definition
    to the setter that the definition inherits: an object or [null] would
    replace the prototype of the definition; another value is ignored, and
    the other properties are merged. *)
Example partial_with_proto_key :
  let getPosts := Object_at 20%positive (query build Scenario.getPosts) in
  let merge v :=
    enhanceEndpoints (H := Scenario.production) 2%positive None
      (Some [("getPosts",
              PartialObject {[ "__proto__" := v; "x" := JNum 1 ]})])
      Scenario.posts_api in
  (merge JNull).1 = Beyond
  ∧ (merge (JObj ∅)).1 = Beyond
  ∧ (merge (JNum 1)).1 = Returned 2%positive
  ∧ contents (merge (JNum 1)).2 getPosts !! "__proto__" = None
  ∧ contents (merge (JNum 1)).2 getPosts !! "x" = Some (JNum 1)
  ∧ contents (merge (JNum 1)).2 getPosts !! "type" = Some (JStr "query").
Proof. vm_compute. done. Qed.

(** X8: [enhanceEndpoints] registers and unregisters nothing and replaces
    no prototype: the own properties and the prototype of
    [context.endpointDefinitions] are the same objects before and after;
    the log and the caches stay as they are. It writes to definitions
    only: in a run that this development follows to its end, a definition
    keeps its properties unless it is registered under one of the names
    given or, where [__proto__] is one of them, is the replaced
    prototype. *)
Theorem enhanceEndpoints_frame `{Host} (api : ObjRef)
    (addTagTypes : option (list string))
    (endpoints : option (JsRecord PartialDefinition)) (st : ApiState) :
  let run := enhanceEndpoints api addTagTypes endpoints st in
  endpointDefinitions run.2 = endpointDefinitions st
  ∧ prototype run.2 = prototype st
  ∧ log run.2 = log st
  ∧ extractCache run.2 = extractCache st
  ∧ hasCache run.2 = hasCache st
  ∧ (run.1 ≠ Beyond →
     ∀ d,
       (∀ n d', n ∈ (default [] endpoints).*1 →
                endpointDefinitions st !! n = Some d' →
                definition_ref d' ≠ definition_ref d) →
       ("__proto__" ∈ (default [] endpoints).*1 →
        ∀ p, prototype st = Some p → definition_ref p ≠ definition_ref d) →
       contents run.2 d = contents st d).
Proof.
  intros run. subst run.
  destruct (enhanceEndpoints_run api addTagTypes endpoints st)
    as (r & objs & -> & Hother & _).
  cbn [fst snd]. split_and!; try done.
  intros _ d Hown Hproto. unfold contents. cbn. by rewrite Hother.
Qed.

Lemma enhanceEndpoints_frame_witness :
  let shared := Object_at 27%positive (query build Scenario.getPosts) in
  let st :=
    (injectEndpoints (H := Scenario.production) 2%positive
       (initialized [Scenario.core])
       {| endpoints := λ b, [("a", shared); ("b", shared)];
          overrideExisting := JUndefined |} Scenario.posts_api).2 in
  let getPosts := Object_at 20%positive (query build Scenario.getPosts) in
  let run :=
    enhanceEndpoints (H := Scenario.production) 2%positive None
      (Some [("a", PartialObject {[ "keepUnusedDataFor" := JNum 5 ]})]) st in
  run.1 ≠ Beyond
  ∧ endpointDefinitions st !! "getPosts" = Some getPosts
  ∧ contents run.2 getPosts = contents st getPosts.
Proof.
  intros shared st getPosts run.
  assert (run.1 ≠ Beyond) as Hrun by (vm_compute; discriminate).
  split; [exact Hrun|]. split; [vm_compute; reflexivity|].
  destruct (enhanceEndpoints_frame (H := Scenario.production) 2%positive None
              (Some [("a", PartialObject {[ "keepUnusedDataFor" := JNum 5 ]})]) st)
    as (_ & _ & _ & _ & _ & Hkeep).
  apply (Hkeep Hrun getPosts).
  - intros n d' Hn Hd'. cbn in Hn. apply list_elem_of_singleton in Hn as ->.
    vm_compute in Hd'. injection Hd' as <-. vm_compute. discriminate.
  - intros Hn. cbn in Hn. apply list_elem_of_singleton in Hn. discriminate.
Defined.

(** X9: for an [endpoints] object and a registered name in it whose
    definition no other of its entries reaches (the definition is not
    registered under another of the names, nor the replaced prototype
    where [__proto__] is another of them), a call of [enhanceEndpoints]
    that returns has left the definition registered, with the properties
    that the given function made of it, or with the given object merged
    into it: the properties of the object win and the other properties of
    the definition stay. The property [__proto__], which [Object.assign]
    sets rather than defines, is merged where the definition has such a
    property of its own, and is not added where it has none. *)
Theorem enhanceEndpoints_merges `{Host} (api : ObjRef)
    (addTagTypes : option (list string))
    (endpoints : JsRecord PartialDefinition) (st : ApiState)
    (n : string) (pd : PartialDefinition) (d : EndpointDefinition) :
  let run := enhanceEndpoints api addTagTypes (Some endpoints) st in
  NoDup endpoints.*1 →
  (n, pd) ∈ endpoints →
  endpointDefinitions st !! n = Some d →
  (∀ n' d', n' ∈ endpoints.*1 → n' ≠ n →
            endpointDefinitions st !! n' = Some d' →
            definition_ref d' ≠ definition_ref d) →
  ("__proto__" ∈ endpoints.*1 → n ≠ "__proto__" →
   ∀ p, prototype st = Some p → definition_ref p ≠ definition_ref d) →
  run.1 = Returned api →
  endpointDefinitions run.2 !! n = Some d
  ∧ match pd with
    | UpdateFunction f =>
        call_enhancer f (JObj (contents st d)) = Returned (contents run.2 d)
    | PartialObject p =>
        (∀ k, k ≠ "__proto__" →
           contents run.2 d !! k
           = match p !! k with
             | Some v => Some v
             | None => contents st d !! k
             end)
        ∧ contents run.2 d !! "__proto__"
          = match contents st d !! "__proto__" with
            | Some old => Some (default old (p !! "__proto__"))
            | None => None
            end
    end.
Proof.
  intros run Hnd Hel Hd Hown Hproto Hret. subst run.
  split.
  { destruct (enhanceEndpoints_run api addTagTypes (Some endpoints) st)
      as (r & objs & -> & _). done. }
  revert Hret. rewrite enhanceEndpoints_unfold.
  set (st1 := set_tagTypes _ st).
  pose proof (enhance_loop_at endpoints st1 n pd d Hnd Hel Hd Hown Hproto) as Hat.
  destruct (for_of endpoints enhance_entry st1) as [[[]|e|] st'];
    [|done..].
  intros _. by apply Hat.
Qed.

Lemma enhanceEndpoints_merges_witness :
  let endpoints :=
    [("getPosts", PartialObject {[ "keepUnusedDataFor" := JNum 5;
                                   "type" := JStr "infinitequery" ]})] in
  let getPosts := Object_at 20%positive (query build Scenario.getPosts) in
  let run :=
    enhanceEndpoints (H := Scenario.production) 2%positive None (Some endpoints)
      Scenario.posts_api in
  run.1 = Returned 2%positive
  ∧ endpointDefinitions run.2 !! "getPosts" = Some getPosts
  ∧ contents run.2 getPosts !! "type" = Some (JStr "infinitequery")
  ∧ contents run.2 getPosts !! "query" = Some (JFun 10%positive).
Proof.
  intros endpoints getPosts run.
  assert (run.1 = Returned 2%positive) as Hret by (vm_compute; reflexivity).
  split; [exact Hret|].
  destruct (enhanceEndpoints_merges (H := Scenario.production) 2%positive None
              endpoints Scenario.posts_api "getPosts"
              (PartialObject {[ "keepUnusedDataFor" := JNum 5;
                                "type" := JStr "infinitequery" ]})
              getPosts) as (Hd & Hk & _).
  - apply NoDup_singleton.
  - apply list_elem_of_singleton. reflexivity.
  - vm_compute. reflexivity.
  - intros n' d' Hn' Hne. cbn in Hn'. apply list_elem_of_singleton in Hn'. done.
  - intros Hn. cbn in Hn. apply list_elem_of_singleton in Hn. discriminate.
  - exact Hret.
  - split; [exact Hd|]. subst run. split.
    + rewrite (Hk "type") by discriminate. reflexivity.
    + rewrite (Hk "query") by discriminate. reflexivity.
Defined.

(** X10: after [enhanceEndpoints] the tag types are those there were and
    those of [addTagTypes], and nothing else; giving the same
    [addTagTypes] a second time appends nothing. *)
Theorem enhanceEndpoints_tags_again `{Host} (api : ObjRef)
    (addTagTypes : list string)
    (endpoints endpoints' : option (JsRecord PartialDefinition))
    (st : ApiState) :
  let run := enhanceEndpoints api (Some addTagTypes) endpoints st in
  let again := enhanceEndpoints api (Some addTagTypes) endpoints' run.2 in
  (∀ t, t ∈ tagTypes run.2 ↔ t ∈ tagTypes st ∨ t ∈ addTagTypes)
  ∧ tagTypes again.2 = tagTypes run.2.
Proof.
  intros run again. subst run again.
  destruct (enhanceEndpoints_run api (Some addTagTypes) endpoints st)
    as (r & objs & -> & _).
  cbn [snd].
  match goal with |- context [enhanceEndpoints api _ endpoints' ?st1] =>
    destruct (enhanceEndpoints_run api (Some addTagTypes) endpoints' st1)
      as (r2 & objs2 & -> & _)
  end.
  destruct (appended_tags_spec addTagTypes (tagTypes st)) as (Hmem & _).
  cbn. split.
  - intros t. rewrite elem_of_app, Hmem.
    destruct (decide (t ∈ tagTypes st)); naive_solver.
  - match goal with |- _ ++ ?added2 = _ => assert (added2 = []) as -> end;
      [|by rewrite app_nil_r].
    apply elem_of_nil_inv. intros t Ht.
    apply appended_tags_spec in Ht as [Hin Hout].
    apply Hout. rewrite elem_of_app, Hmem.
    destruct (decide (t ∈ tagTypes st)); auto.
Qed.

(** ** More on the memoized functions (createApi.ts, lines 347 to 351 and
    396 to 401) and on [baseCreateApi] *)

Section RehydrationMore.
Context `{Host}.
Variable modules : list Module.
Variable options : CreateApiOptions.
Variable api : ObjRef.

(** With a cached result for the action object, either memoized function
    changes at most the cache of [hasRehydrationInfo]. *)
Lemma hasRehydrationInfo_cached action st v :
  extractCache st !! action_ref action = Some v →
  ∃ c, (hasRehydrationInfo options action st).2 = set_hasCache c st.
Proof.
  intros Hv. unfold hasRehydrationInfo, weakMapMemoize.
  destruct (hasCache st !! action_ref action) as [b|].
  - exists (hasCache st). by destruct st.
  - erewrite bind_returned; [|by apply extractRehydrationInfo_hit].
    cbn [mret M_ret snd]. by eexists.
Qed.

Lemma after_cached (calls : list ApiCall) (st : ApiState) (r : ObjRef) v :
  extractCache st !! r = Some v →
  Forall (λ c, ∃ a, action_ref a = r
                 ∧ (c = CallExtractRehydrationInfo a
                    ∨ c = CallHasRehydrationInfo a)) calls →
  ∃ c, after modules options api calls st = set_hasCache c st.
Proof.
  intros Hv Hcalls. revert st Hv.
  induction Hcalls as [|call calls (a & Ha & Hcall) _ IH]; intros st Hv.
  - exists (hasCache st). by destruct st.
  - cbn [after foldl].
    assert (∃ c, (perform modules options api call st).2 = set_hasCache c st)
      as [c Hc].
    { destruct Hcall as [-> | ->]; cbn [perform]; rewrite discard_result.
      - rewrite (extractRehydrationInfo_hit options a st v) by by rewrite Ha.
        exists (hasCache st). by destruct st.
      - apply (hasRehydrationInfo_cached a st v). by rewrite Ha. }
    fold (after modules options api calls
            (perform modules options api call st).2).
    rewrite Hc. destruct (IH (set_hasCache c st) Hv) as [c' ->].
    by exists c'.
Qed.

End RehydrationMore.

(** X11: the [extractRehydrationInfo] of the options is called at most once
    for an action object: once [context.extractRehydrationInfo] has been
    called with it, further calls of that function and of
    [context.hasRehydrationInfo] with the same object leave the world, and
    every variable of the api but the cache of [hasRehydrationInfo], as
    they are. *)
Theorem extractRehydrationInfo_called_once `{Host} (modules : list Module)
    (options : CreateApiOptions) (api : ObjRef) (st : ApiState)
    (action : Action) (calls : list ApiCall) :
  let st1 := (extractRehydrationInfo options action st).2 in
  let st2 := after modules options api calls st1 in
  Forall (λ c, ∃ a, action_ref a = action_ref action
                 ∧ (c = CallExtractRehydrationInfo a
                    ∨ c = CallHasRehydrationInfo a)) calls →
  world st2 = world st1
  ∧ extractCache st2 = extractCache st1
  ∧ tagTypes st2 = tagTypes st1
  ∧ endpointDefinitions st2 = endpointDefinitions st1
  ∧ prototype st2 = prototype st1
  ∧ objects st2 = objects st1
  ∧ log st2 = log st1.
Proof.
  intros st1 st2 Hcalls. subst st1 st2.
  destruct (extractRehydrationInfo_run options action st)
    as (v & st1 & -> & Hcache & _). cbn [snd].
  destruct (after_cached modules options api calls st1 (action_ref action) v)
    as [c ->]; [|done|done].
  rewrite Hcache. apply lookup_insert_eq.
Qed.

Lemma extractRehydrationInfo_called_once_witness :
  let action := {| action_ref := 7%positive; action_fields := ∅ |} in
  let other := {| action_ref := 7%positive;
                  action_fields := {[ "type" := JStr "persist/REHYDRATE" ]} |} in
  let st :=
    (createApi (H := Scenario.production) [Scenario.core]
       Scenario.rehydrating_options 1%positive 2%positive 0).2 in
  let st1 := (extractRehydrationInfo Scenario.rehydrating_options action st).2 in
  let st2 :=
    after (H := Scenario.production) [Scenario.core]
      Scenario.rehydrating_options 2%positive
      [@CallHasRehydrationInfo Scenario.production other;
       @CallExtractRehydrationInfo Scenario.production other] st1 in
  world st1 = 1 ∧ world st2 = 1.
Proof.
  intros action other st st1 st2.
  assert (world st1 = 1) as Hw by (vm_compute; reflexivity).
  split; [exact Hw|]. rewrite <- Hw.
  apply (extractRehydrationInfo_called_once (H := Scenario.production)
           [Scenario.core] Scenario.rehydrating_options 2%positive st action).
  repeat constructor; exists other; split; auto.
Defined.

(** X12: in every mode, and whether it returns or throws, [createApi]
    leaves the api with a copy of the tag types of the options as they are
    (duplicates and all), with empty caches, with the world untouched (it
    calls no [extractRehydrationInfo]), and with no endpoint registered
    under a name that the endpoints of the options do not have; the
    prototype of [context.endpointDefinitions] is [Object.prototype] and no
    definition has been written to. *)
Theorem createApi_variables `{Host} (modules : list Module)
    (options : CreateApiOptions) (context api : ObjRef) (w : World) :
  let run := buildCreateApi modules options context api w in
  tagTypes run.2 = default [] (CreateApiOptions.tagTypes options)
  ∧ extractCache run.2 = ∅
  ∧ hasCache run.2 = ∅
  ∧ world run.2 = w
  ∧ prototype run.2 = None
  ∧ objects run.2 = ∅
  ∧ ∀ n, is_Some (endpointDefinitions run.2 !! n) →
         n ∈ (CreateApiOptions.endpoints options build).*1.
Proof.
  intros run. subst run. unfold buildCreateApi. rewrite createApi_unfold.
  match goal with |- context [injectEndpoints api ?ims ?inj ?st] =>
    destruct (injectEndpoints_injected api ims inj st) as (r & new & Hrun & _)
  end.
  destruct (injected_frame _ _ _ _ _ _ _ Hrun) as (Ht & He & Hh & Hw & Ho).
  pose proof (injected_prototype _ _ _ _ _ _ _ Hrun eq_refl) as Hp.
  split_and!; try done.
  intros n Hn.
  destruct (injected_names _ _ _ _ _ _ _ n Hrun Hn) as [Hold|Hin]; [|done].
  cbn in Hold. rewrite lookup_empty in Hold. by destruct Hold.
Qed.
